(** * Podcast analytics dashboard (src/app.py): a shallow embedding

    The program loads a table of (episode, reporting interval) records with
    pandas, derives a monthly aggregate once at start-up and serves two Dash
    callbacks: [update_monthly_stats_graph] and [update_graph].

    Conventions of the embedding.
    - A pandas [Timestamp] is kept in its civil form (year, month, day,
      nanoseconds into the day); timestamps compare lexicographically, which
      is the order of the underlying nanosecond count.  pandas only
      represents the years 1677 to 2262 ([valid_ts]).
    - A numeric cell is an integer or the missing value [NaN].  The source
      column holds download counts; pandas stores them as int64, and the
      per-episode computation (line 147) runs in float64, which is exact on
      integers of magnitude up to 2^53.  Integer arithmetic on [Z] is what
      the code computes as long as every intermediate value stays in that
      range; the theorems about the per-episode numbers carry this bound
      ([float_exact], [float_exact_column]).  Infinities and text in the
      column are outside the embedding.
    - Rows with the same interval have no order of their own under
      [sort_values]: numpy's sort decides.  What depends on the order of
      the sorted rows is stated for pairwise distinct intervals.
    - A [DataFrame] is the list of its rows in positional order.
    - Frames live in a heap of objects addressed by location; the callbacks
      are computations in a state-and-exception monad over that heap. *)

From Stdlib Require Import ZArith Lia Ascii String.
From stdpp Require Import base list strings sorting numbers pretty.

Local Open Scope Z_scope.

(** ** Cells *)

Inductive cell : Type :=
  | Num (z : Z)
  | NaN.

Global Instance cell_eq_dec : EqDecision cell.
Proof. solve_decision. Defined.

(** float subtraction: anything involving NaN is NaN *)
Definition cell_sub (a b : cell) : cell :=
  match a, b with
  | Num x, Num y => Num (x - y)
  | _, _ => NaN
  end.

Definition isna (c : cell) : bool :=
  match c with NaN => true | Num _ => false end.

(** ** Timestamps and monthly periods *)

Record Timestamp : Type := mkTimestamp {
  ts_year : Z;
  ts_month : Z;
  ts_day : Z;
  ts_nanos : Z
}.

Record Period : Type := mkPeriod {
  p_year : Z;
  p_month : Z
}.

Global Instance Timestamp_eq_dec : EqDecision Timestamp.
Proof. solve_decision. Defined.

Global Instance Period_eq_dec : EqDecision Period.
Proof. solve_decision. Defined.

Definition ts_le (a b : Timestamp) : Prop :=
  ts_year a < ts_year b ∨
  (ts_year a = ts_year b ∧
   (ts_month a < ts_month b ∨
    (ts_month a = ts_month b ∧
     (ts_day a < ts_day b ∨
      (ts_day a = ts_day b ∧ ts_nanos a ≤ ts_nanos b))))).

Global Instance ts_le_dec : RelDecision ts_le.
Proof. intros a b. unfold ts_le. apply _. Defined.

Definition period_le (p q : Period) : Prop :=
  p_year p < p_year q ∨ (p_year p = p_year q ∧ p_month p ≤ p_month q).

Global Instance period_le_dec : RelDecision period_le.
Proof. intros a b. unfold period_le. apply _. Defined.

(** [Series.dt.to_period('M')] *)
Definition to_period (t : Timestamp) : Period :=
  mkPeriod (ts_year t) (ts_month t).

(** the range of years pandas can hold in a Timestamp *)
Definition valid_ts (t : Timestamp) : Prop :=
  1677 ≤ ts_year t ≤ 2262 ∧ 1 ≤ ts_month t ≤ 12.

Definition valid_period (p : Period) : Prop :=
  1677 ≤ p_year p ≤ 2262 ∧ 1 ≤ p_month p ≤ 12.

(** ** Text formatting *)

Definition digit (d : Z) : ascii :=
  match d with
  | 0 => "0" | 1 => "1" | 2 => "2" | 3 => "3" | 4 => "4"
  | 5 => "5" | 6 => "6" | 7 => "7" | 8 => "8" | _ => "9"
  end%char.

(** two and four decimal digits, zero padded ([%m], [%d] and [%Y]) *)
Definition fmt2 (n : Z) : string :=
  String (digit (n / 10)) (String (digit (n mod 10)) "").

Definition fmt4 (n : Z) : string :=
  String (digit (n / 1000))
    (String (digit (n / 100 mod 10))
       (String (digit (n / 10 mod 10)) (String (digit (n mod 10)) ""))).

(** [str] of a monthly Period: [%Y-%m] *)
Definition period_str (p : Period) : string :=
  fmt4 (p_year p) +:+ "-" +:+ fmt2 (p_month p).

Definition month_name (m : Z) : string :=
  match m with
  | 1 => "January" | 2 => "February" | 3 => "March" | 4 => "April"
  | 5 => "May" | 6 => "June" | 7 => "July" | 8 => "August"
  | 9 => "September" | 10 => "October" | 11 => "November" | _ => "December"
  end.

(** [strftime('%B %d, %Y')] *)
Definition strftime_Bdy (t : Timestamp) : string :=
  month_name (ts_month t) +:+ " " +:+ fmt2 (ts_day t) +:+ ", " +:+ fmt4 (ts_year t).

(** grouping of a reversed digit string by threes; [k] digits are already
    in the current group *)
Fixpoint group3_rev (k : nat) (s : string) : string :=
  match s with
  | EmptyString => EmptyString
  | String c s' =>
      match k with
      | 3%nat => String "," (String c (group3_rev 1 s'))
      | _ => String c (group3_rev (S k) s')
      end
  end.

Definition group3 (digits : string) : string :=
  String.rev (group3_rev 0 (String.rev digits)).

(** the format specification [{:,}] applied to an integer *)
Definition format_thousands (z : Z) : string :=
  if decide (z < 0) then "-" +:+ group3 (pretty (- z)) else group3 (pretty z).

(** ** The table *)

Record row : Type := mkRow {
  episode_title : string;
  published_at : Timestamp;
  interval : Timestamp;
  downloads_total : cell;
  publish_month : option Period;     (* column added at line 27 *)
  monthly_downloads : option cell    (* column added at line 147 *)
}.

Abbreviation DataFrame := (list row).

Global Instance row_eq_dec : EqDecision row.
Proof. solve_decision. Defined.

(** ** Exceptions *)

Inductive exn : Type :=
  | IndexError
  | ValueError
  | KeyError
  | TypeError.

Inductive outcome (A : Type) : Type :=
  | Ok (a : A)
  | Raise (e : exn).
Global Arguments Ok {A} a.
Global Arguments Raise {A} e.

Global Instance exn_eq_dec : EqDecision exn.
Proof. solve_decision. Defined.

(** ** pandas primitives used by the program *)

Section pandas.
Context {A : Type}.

(** positional access [s.iloc[i]]; a negative position counts from the
    end; out of bounds raises IndexError *)
Definition iloc (l : list A) (i : Z) : outcome A :=
  let n := Z.of_nat (length l) in
  let j := if decide (i < 0) then n + i else i in
  if decide (0 ≤ j < n) then
    match l !! Z.to_nat j with
    | Some a => Ok a
    | None => Raise IndexError
    end
  else Raise IndexError.

Context {K : Type} `{EqDecision K}.

(** keep the first row of every key, in order of appearance
    ([Series.unique], [DataFrame.drop_duplicates(subset=...)]) *)
Fixpoint drop_duplicates (key : A → K) (l : list A) : list A :=
  match l with
  | [] => []
  | a :: l' => a :: filter (λ b, key b ≠ key a) (drop_duplicates key l')
  end.

End pandas.

Definition unique {K : Type} `{EqDecision K} (l : list K) : list K :=
  drop_duplicates id l.

(** [groupby(key)]: one group per distinct non-missing key, groups in
    ascending key order, rows of a group in their original order *)
Definition groupby {A K : Type} `{EqDecision K} (R : relation K)
    `{!RelDecision R} (key : A → option K) (l : list A) : list (K * list A) :=
  (λ k, (k, filter (λ a, key a = Some k) l))
    <$> merge_sort R (unique (omap key l)).

(** [Series.diff()] : the first element is missing, then x[i] - x[i-1] *)
Fixpoint diff_from (prev : cell) (l : list cell) : list cell :=
  match l with
  | [] => []
  | x :: l' => cell_sub x prev :: diff_from x l'
  end.

Definition diff (l : list cell) : list cell :=
  match l with
  | [] => []
  | x :: l' => NaN :: diff_from x l'
  end.

(** [s.fillna(other)] with a series on the same index: a missing element
    takes the element of [other] at its position *)
Definition fillna_series (l other : list cell) : list cell :=
  zip_with (λ x o, if isna x then o else x) l other.

(** [fillna(0)] on a cell *)
Definition fillna0 (c : cell) : cell :=
  if isna c then Num 0 else c.

(** [Series.sum()]: missing values are skipped, the empty sum is 0 *)
Fixpoint sum_skipna (l : list cell) : Z :=
  match l with
  | [] => 0
  | Num z :: l' => z + sum_skipna l'
  | NaN :: l' => sum_skipna l'
  end.

(** [int(x)] of a float: NaN cannot be converted *)
Definition to_int (c : cell) : outcome Z :=
  match c with
  | Num z => Ok z
  | NaN => Raise ValueError
  end.

(** [DataFrame.sort_values('interval')]: ascending intervals.  Rows with
    distinct intervals have one such order.  Rows with the same interval
    are ordered by numpy's sort; its scalar code, an insertion sort on
    short columns, keeps them in table order, as this stable insertion
    does. *)
Fixpoint insert_by_interval (r : row) (d : DataFrame) : DataFrame :=
  match d with
  | [] => [r]
  | x :: d' =>
      if decide (ts_le (interval r) (interval x)) then r :: x :: d'
      else x :: insert_by_interval r d'
  end.

Definition sort_values_interval (d : DataFrame) : DataFrame :=
  foldr insert_by_interval [] d.

(** ** Start-up aggregation (lines 20 to 36) *)

(** line 21: downloads summed over all episodes, per interval *)
Definition total_downloads_df (df : DataFrame) : list (Timestamp * Z) :=
  (λ g, (g.1, sum_skipna (downloads_total <$> g.2)))
    <$> groupby ts_le (λ r, Some (interval r)) df.

(** lines 22 to 24: the last interval's total of every month *)
Definition monthly_downloads_of (df : DataFrame) : list (string * Z) :=
  omap (λ g, (λ t, (period_str g.1, t.2)) <$> last g.2)
    (groupby period_le (λ t, Some (to_period t.1)) (total_downloads_df df)).

(** line 27 *)
Definition assign_publish_month (df : DataFrame) : DataFrame :=
  (λ r, mkRow (episode_title r) (published_at r) (interval r)
          (downloads_total r) (Some (to_period (published_at r)))
          (monthly_downloads r)) <$> df.

(** line 29 *)
Definition unique_episodes_df (df : DataFrame) : DataFrame :=
  drop_duplicates episode_title df.

(** lines 30 to 32: number of distinct episodes per publication month *)
Definition episodes_per_month (df : DataFrame) : list (string * Z) :=
  (λ g, (period_str g.1, Z.of_nat (length g.2)))
    <$> groupby period_le publish_month (unique_episodes_df df).

Record month_row : Type := mkMonthRow {
  month : string;
  mr_downloads_total : cell;
  mr_episode_count : cell
}.

Global Instance month_row_eq_dec : EqDecision month_row.
Proof. solve_decision. Defined.

(** [pd.merge(left, right, on='month', how='outer')]: the union of the
    keys in lexicographic order; matching rows are paired, a row without a
    partner gets a missing value on the other side *)
Definition merge_outer (left right : list (string * Z)) : list month_row :=
  k ← merge_sort String.le (unique (left.*1 ++ right.*1));
  match filter (λ x, x.1 = k) left, filter (λ y, y.1 = k) right with
  | [], rs => (λ y, mkMonthRow k NaN (Num y.2)) <$> rs
  | ls, [] => (λ x, mkMonthRow k (Num x.2) NaN) <$> ls
  | ls, rs => x ← ls; y ← rs; [mkMonthRow k (Num x.2) (Num y.2)]
  end.

Definition fillna_zero (t : list month_row) : list month_row :=
  (λ r, mkMonthRow (month r) (fillna0 (mr_downloads_total r))
          (fillna0 (mr_episode_count r))) <$> t.

Definition sort_values_month (t : list month_row) : list month_row :=
  merge_sort (λ r1 r2, String.le (month r1) (month r2)) t.

(** lines 35 and 36 *)
Definition all_months_of (df : DataFrame) : list month_row :=
  sort_values_month
    (fillna_zero
       (merge_outer (monthly_downloads_of df)
          (episodes_per_month (assign_publish_month df)))).

(** ** The object store and the callback monad *)

Inductive obj : Type :=
  | ODataFrame (d : DataFrame)
  | OMonthTable (t : list month_row).

Abbreviation loc := nat (only parsing).
Abbreviation heap := (list obj).

(** the module-level names the callbacks read *)
Record globals : Type := mkGlobals {
  g_df : loc;
  g_all_months : loc
}.

Definition M (A : Type) : Type := heap → outcome A * heap.

Global Instance M_ret : MRet M := λ A a h, (Ok a, h).

Global Instance M_bind : MBind M := λ A B k m h,
  match m h with
  | (Ok a, h') => k a h'
  | (Raise e, h') => (Raise e, h')
  end.

Definition lift {A : Type} (o : outcome A) : M A := λ h, (o, h).

(** a new frame object (the result of an indexing, copy or sort) *)
Definition new_frame (d : DataFrame) : M loc :=
  λ h, (Ok (length h), h ++ [ODataFrame d]).

Definition get_frame (l : loc) : M DataFrame := λ h,
  match h !! l with
  | Some (ODataFrame d) => (Ok d, h)
  | _ => (Raise TypeError, h)
  end.

Definition get_month_table (l : loc) : M (list month_row) := λ h,
  match h !! l with
  | Some (OMonthTable t) => (Ok t, h)
  | _ => (Raise TypeError, h)
  end.

(** the rows of a frame with the column monthly_downloads set *)
Definition assign_monthly_downloads (d : DataFrame) (values : list cell)
    : DataFrame :=
  zip_with (λ r v, mkRow (episode_title r) (published_at r) (interval r)
                     (downloads_total r) (publish_month r) (Some v)) d values.

(** [frame['monthly_downloads'] = values]: the frame object at [l] is
    updated in place; the lengths must agree *)
Definition set_monthly_downloads (l : loc) (values : list cell) : M unit := λ h,
  match h !! l with
  | Some (ODataFrame d) =>
      if decide (length values = length d) then
        (Ok (), <[l := ODataFrame (assign_monthly_downloads d values)]> h)
      else (Raise ValueError, h)
  | _ => (Raise TypeError, h)
  end.

(** [frame['monthly_downloads']]: KeyError when the column is absent *)
Definition get_monthly_downloads (l : loc) : M (list cell) :=
  d ← get_frame l;
  match mapM monthly_downloads d with
  | Some col => mret col
  | None => lift (Raise KeyError)
  end.

(** ** Figures *)

Record Bar : Type := mkBar {
  bar_name : string;
  bar_x : list string;
  bar_y : list cell;
  bar_marker_color : string;
  bar_offsetgroup : Z;
  bar_secondary_y : bool
}.

Record MonthlyFigure : Type := mkMonthlyFigure {
  mf_data : list Bar;
  mf_title : string;
  mf_barmode : string;
  mf_yaxis_title : string;
  mf_yaxis2_title : string;
  mf_xaxis_title : string
}.

Record Scatter : Type := mkScatter {
  sc_x : list Timestamp;
  sc_y : list cell;
  sc_mode : string;
  sc_name : string
}.

Record LineFigure : Type := mkLineFigure {
  lf_data : list Scatter;
  lf_title : string;
  lf_xaxis_title : string;
  lf_yaxis_title : string
}.

(** ** The callbacks *)

(** lines 81 to 129; the gaps and the legend placement, constants of the
    layout, are left out of the figure record *)
Definition update_monthly_stats_graph (g : globals) (_ : string)
    : M MonthlyFigure :=
  all_months ← get_month_table (g_all_months g);
  mret (mkMonthlyFigure
          [ mkBar "Total Downloads" (month <$> all_months)
              (mr_downloads_total <$> all_months) "rgb(55, 83, 109)" 0 false;
            mkBar "New Episodes" (month <$> all_months)
              (mr_episode_count <$> all_months) "rgb(26, 118, 255)" 1 true ]
          "Monthly Downloads and New Episodes" "group"
          "Total Downloads" "Number of New Episodes" "Month").

(** lines 138 to 172 *)
Definition update_graph (g : globals) (selected_episode : string)
    : M (LineFigure * string * string) :=
  df ← get_frame (g_df g);
  (* df[df['episode_title'] == selected_episode] builds a new frame *)
  masked ← new_frame (filter (λ r, episode_title r = selected_episode) df);
  (* .copy() *)
  d1 ← get_frame masked;
  copied ← new_frame d1;
  (* sort_values returns a new frame, bound to filtered_df *)
  d2 ← get_frame copied;
  filtered_df ← new_frame (sort_values_interval d2);
  d3 ← get_frame filtered_df;
  published ← lift (iloc (published_at <$> d3) 0);
  let publish_date := strftime_Bdy published in
  set_monthly_downloads filtered_df
    (fillna_series (diff (downloads_total <$> d3)) (downloads_total <$> d3));;
  deltas ← get_monthly_downloads filtered_df;
  let total_downloads := sum_skipna deltas in
  d4 ← get_frame filtered_df;
  total_int ← lift (to_int (Num total_downloads));
  let fig :=
    mkLineFigure
      [ mkScatter (interval <$> d4) (downloads_total <$> d4) "lines" "Downloads" ]
      ("Downloads Over Time - " +:+ selected_episode +:+
       "<br><sup>Published: " +:+ publish_date +:+
       " | Total Downloads: " +:+ format_thousands total_int +:+ "</sup>")
      "Date" "Downloads" in
  latest_monthly_downloads ← lift (iloc deltas (-1));
  latest_int ← lift (to_int latest_monthly_downloads);
  mret (fig, format_thousands total_int, format_thousands latest_int).

(** ** The callbacks as functions of the table

    The named intermediate values of [update_graph], and its result and
    its allocations written without the store; [update_graph_run] below
    proves that the callback computes exactly these. *)

(** lines 140 and 141 *)
Definition episode_series (df : DataFrame) (selected_episode : string)
    : DataFrame :=
  sort_values_interval (filter (λ r, episode_title r = selected_episode) df).

(** line 147 *)
Definition monthly_delta_series (d : DataFrame) : list cell :=
  fillna_series (diff (downloads_total <$> d)) (downloads_total <$> d).

Definition graph_figure (selected_episode : string) (s : DataFrame)
    (published : Timestamp) (total : Z) : LineFigure :=
  mkLineFigure
    [ mkScatter (interval <$> s) (downloads_total <$> s) "lines" "Downloads" ]
    ("Downloads Over Time - " +:+ selected_episode +:+
     "<br><sup>Published: " +:+ strftime_Bdy published +:+
     " | Total Downloads: " +:+ format_thousands total +:+ "</sup>")
    "Date" "Downloads".

Definition graph_result (df : DataFrame) (selected_episode : string)
    : outcome (LineFigure * string * string) :=
  let s := episode_series df selected_episode in
  match iloc (published_at <$> s) 0 with
  | Raise e => Raise e
  | Ok published =>
      let deltas := monthly_delta_series s in
      match iloc deltas (-1) with
      | Raise e => Raise e
      | Ok latest =>
          match to_int latest with
          | Raise e => Raise e
          | Ok latest_int =>
              Ok (graph_figure selected_episode s published (sum_skipna deltas),
                  format_thousands (sum_skipna deltas),
                  format_thousands latest_int)
          end
      end
  end.

(** the frames [update_graph] leaves behind: the masked rows, their copy,
    and the sorted copy, which carries the delta column once line 147 ran *)
Definition graph_allocations (df : DataFrame) (selected_episode : string)
    : list obj :=
  let m := filter (λ r, episode_title r = selected_episode) df in
  let s := episode_series df selected_episode in
  [ ODataFrame m; ODataFrame m;
    ODataFrame (match iloc (published_at <$> s) 0 with
                | Ok _ => assign_monthly_downloads s (monthly_delta_series s)
                | Raise _ => s
                end) ].

Definition monthly_figure (all_months : list month_row) : MonthlyFigure :=
  mkMonthlyFigure
    [ mkBar "Total Downloads" (month <$> all_months)
        (mr_downloads_total <$> all_months) "rgb(55, 83, 109)" 0 false;
      mkBar "New Episodes" (month <$> all_months)
        (mr_episode_count <$> all_months) "rgb(26, 118, 255)" 1 true ]
    "Monthly Downloads and New Episodes" "group"
    "Total Downloads" "Number of New Episodes" "Month".

(** ** Layout and start-up *)

Record Dropdown : Type := mkDropdown {
  dd_options : list (string * string);   (* label, value *)
  dd_value : string
}.

(** lines 51 to 56 *)
Definition episode_dropdown (df : DataFrame) : outcome Dropdown :=
  match iloc (episode_title <$> df) 0 with
  | Ok v =>
      Ok (mkDropdown ((λ t, (t, t)) <$> unique (episode_title <$> df)) v)
  | Raise e => Raise e
  end.

(** the state after the module has been loaded: the table with its
    publish_month column, and the monthly aggregate *)
Definition load (raw : DataFrame) : globals * heap :=
  (mkGlobals 0%nat 1%nat,
   [ODataFrame (assign_publish_month raw); OMonthTable (all_months_of raw)]).

(** ** Serving requests *)

Inductive request : Type :=
  | MonthlyStats (value : string)
  | EpisodeGraph (value : string).

Inductive response : Type :=
  | MonthlyStatsResponse (r : outcome MonthlyFigure)
  | EpisodeGraphResponse (r : outcome (LineFigure * string * string)).

Definition serve (g : globals) (q : request) (h : heap) : response * heap :=
  match q with
  | MonthlyStats v =>
      let (r, h') := update_monthly_stats_graph g v h in
      (MonthlyStatsResponse r, h')
  | EpisodeGraph v =>
      let (r, h') := update_graph g v h in
      (EpisodeGraphResponse r, h')
  end.

Fixpoint serve_all (g : globals) (qs : list request) (h : heap)
    : list response * heap :=
  match qs with
  | [] => ([], h)
  | q :: qs' =>
      let (r, h') := serve g q h in
      let (rs, h'') := serve_all g qs' h' in
      (r :: rs, h'')
  end.

(** ** The scenario of section 8 of the specification *)

Definition at_midnight (y m d : Z) : Timestamp := mkTimestamp y m d 0.

(** episode A published in 2023-01 with (2023-01-01, 100), (2023-02-01, 250);
    episode B published in 2023-02 with (2023-02-01, 50) *)
Definition scenario (pubA pubB : Timestamp) : DataFrame :=
  [ mkRow "A" pubA (at_midnight 2023 1 1) (Num 100) None None;
    mkRow "A" pubA (at_midnight 2023 2 1) (Num 250) None None;
    mkRow "B" pubB (at_midnight 2023 2 1) (Num 50) None None ].

Definition scenario_df : DataFrame :=
  scenario (at_midnight 2023 1 1) (at_midnight 2023 2 1).

(** a table whose last recorded value is missing *)
Definition missing_last_df : DataFrame :=
  [ mkRow "A" (at_midnight 2023 1 1) (at_midnight 2023 1 1) (Num 100) None None;
    mkRow "A" (at_midnight 2023 1 1) (at_midnight 2023 2 1) NaN None None ].

(** the state invariant of a running server: the two module-level names
    are bound to the table and to the monthly aggregate *)
Definition dataset_at (g : globals) (df : DataFrame) (am : list month_row)
    (h : heap) : Prop :=
  h !! g_df g = Some (ODataFrame df) ∧
  h !! g_all_months g = Some (OMonthTable am).

(** the downloads of all episodes recorded at interval [t] *)
Definition interval_total (df : DataFrame) (t : Timestamp) : Z :=
  sum_skipna (downloads_total <$> filter (λ r, interval r = t) df).

(** every timestamp of the table is one pandas can represent *)
Definition valid_table (df : DataFrame) : Prop :=
  Forall (λ r, valid_ts (published_at r) ∧ valid_ts (interval r)) df.

(** the value a series with distinct keys holds for key [k], missing when
    the key is absent: what an outer merge puts in the row of [k] *)
Definition merged_cell (k : string) (s : list (string * Z)) : cell :=
  match filter (λ x, x.1 = k) s with
  | [] => NaN
  | x :: _ => Num x.2
  end.


(** the text without its thousands separators *)
Fixpoint strip_commas (s : string) : string :=
  match s with
  | EmptyString => EmptyString
  | String c s' =>
      if decide (c = ","%char) then strip_commas s'
      else String c (strip_commas s')
  end.

(** ** Exactness in float64 *)

(** an integer of a magnitude float64 holds exactly *)
Definition float_exact (z : Z) : Prop := Z.abs z ≤ 2 ^ 53.

Definition cell_abs (c : cell) : Z :=
  match c with
  | Num z => Z.abs z
  | NaN => 0
  end.

(** the magnitudes of the present values of a column, added up *)
Definition magnitude (l : list cell) : Z :=
  foldr (λ c acc, cell_abs c + acc) 0 l.

(** a column on which lines 147 and 150 are exact in float64: twice its
    magnitude bounds every value, every difference of two values, every
    delta and every sum of deltas, in whatever order they are added *)
Definition float_exact_column (l : list cell) : Prop :=
  2 * magnitude l ≤ 2 ^ 53.

(** the rows of a title have pairwise distinct intervals, so that they have
    one ascending order, and values on which float64 is exact *)
Definition well_recorded (df : DataFrame) (selected_episode : string) : Prop :=
  NoDup (interval <$> filter (λ r, episode_title r = selected_episode) df) ∧
  float_exact_column
    (downloads_total <$> filter (λ r, episode_title r = selected_episode) df).

(** three decimal digits, zero padded: a group after a separator *)
Definition fmt3 (n : Z) : string :=
  String (digit (n / 100))
    (String (digit (n / 10 mod 10)) (String (digit (n mod 10)) "")).

(** a table with a missing value between two recorded ones *)
Definition gap_df : DataFrame :=
  [ mkRow "A" (at_midnight 2023 1 1) (at_midnight 2023 1 1) (Num 100) None None;
    mkRow "A" (at_midnight 2023 1 1) (at_midnight 2023 2 1) NaN None None;
    mkRow "A" (at_midnight 2023 1 1) (at_midnight 2023 3 1) (Num 250) None None ].

(** a table with values beyond a thousand *)
Definition popular_df : DataFrame :=
  [ mkRow "A" (at_midnight 2023 1 1) (at_midnight 2023 1 1) (Num 1000) None None;
    mkRow "A" (at_midnight 2023 1 1) (at_midnight 2023 2 1) (Num 1234567) None None ].

(** * Properties *)

(** ** Orders *)

Global Instance ts_le_po : PartialOrder ts_le.
Proof.
  split; [split|].
  - intros a. unfold ts_le. lia.
  - intros a b c. unfold ts_le. lia.
  - intros [] []. unfold ts_le. simpl. intros. f_equal; lia.
Qed.

Global Instance ts_le_total : Total ts_le.
Proof. intros a b. unfold ts_le. lia. Qed.

Global Instance period_le_po : PartialOrder period_le.
Proof.
  split; [split|].
  - intros a. unfold period_le. lia.
  - intros a b c. unfold period_le. lia.
  - intros [] []. unfold period_le. simpl. intros. f_equal; lia.
Qed.

Global Instance period_le_total : Total period_le.
Proof. intros a b. unfold period_le. lia. Qed.

Section by_key.
Context {A K : Type} (R : relation K) (key : A → K).

Global Instance by_key_reflexive `{!Reflexive R} :
  Reflexive (λ a b, R (key a) (key b)).
Proof. intros a. apply reflexivity. Qed.

Global Instance by_key_transitive `{!Transitive R} :
  Transitive (λ a b, R (key a) (key b)).
Proof. intros a b c. apply transitivity. Qed.

Global Instance by_key_total `{!Total R} : Total (λ a b, R (key a) (key b)).
Proof. intros a b. apply (total R). Qed.
End by_key.

Lemma insert_by_interval_Permutation r d : insert_by_interval r d ≡ₚ r :: d.
Proof.
  induction d as [|x d IH]; [done|]. simpl. case_decide; [done|].
  rewrite IH. apply perm_swap.
Qed.

Lemma insert_by_interval_sorted r d :
  StronglySorted (λ r1 r2, ts_le (interval r1) (interval r2)) d →
  StronglySorted (λ r1 r2, ts_le (interval r1) (interval r2))
    (insert_by_interval r d).
Proof.
  induction 1 as [|x d Hd IH Hall]; simpl.
  { repeat constructor. }
  case_decide as Hle.
  - constructor; [by constructor|]. constructor; [done|].
    eapply Forall_impl; [exact Hall|]. intros y Hxy. simpl in Hxy.
    by trans (interval x).
  - constructor; [done|]. rewrite insert_by_interval_Permutation.
    constructor; [|done]. by destruct (total ts_le (interval r) (interval x)).
Qed.

Lemma sort_values_interval_Permutation d : sort_values_interval d ≡ₚ d.
Proof.
  induction d as [|r d IH]; [done|]. simpl.
  by rewrite insert_by_interval_Permutation, IH.
Qed.

Lemma sort_values_interval_sorted d :
  StronglySorted (λ r1 r2, ts_le (interval r1) (interval r2))
    (sort_values_interval d).
Proof.
  induction d as [|r d IH]; [constructor|]. simpl.
  by apply insert_by_interval_sorted.
Qed.

(** rows with the same interval stay in table order *)
Lemma insert_by_interval_stable t r d :
  filter (λ x, interval x = t) (insert_by_interval r d)
  = filter (λ x, interval x = t) (r :: d).
Proof.
  induction d as [|x d IH]; [done|]. simpl.
  destruct (decide (ts_le (interval r) (interval x))) as [Hle|Hnle]; [done|].
  rewrite (filter_cons _ x), IH, !(filter_cons _ r), (filter_cons _ x).
  destruct (decide (interval r = t)) as [Hr|Hr]; [|done].
  destruct (decide (interval x = t)) as [Hx|Hx]; [|done].
  destruct Hnle. rewrite Hr, Hx. done.
Qed.

Lemma sort_values_interval_stable t d :
  filter (λ x, interval x = t) (sort_values_interval d)
  = filter (λ x, interval x = t) d.
Proof.
  induction d as [|r d IH]; [done|].
  change (sort_values_interval (r :: d))
    with (insert_by_interval r (sort_values_interval d)).
  by rewrite insert_by_interval_stable, !(filter_cons _ r), IH.
Qed.

Section iloc.
Context {A : Type}.
Implicit Types l : list A.

Lemma iloc_first l : iloc l 0 = match head l with Some a => Ok a | None => Raise IndexError end.
Proof.
  unfold iloc. cbv zeta. destruct l as [|a l]; simpl length.
  - repeat case_decide; done || lia.
  - repeat case_decide; done || lia.
Qed.

Lemma iloc_last l : iloc l (-1) = match last l with Some a => Ok a | None => Raise IndexError end.
Proof.
  unfold iloc. cbv zeta. rewrite (decide_True (P := -1 < 0)) by lia.
  destruct (decide (l = [])) as [->|Hne].
  - simpl. repeat case_decide; done || lia.
  - assert (0 < length l)%nat by (destruct l; simpl; [done|lia]).
    rewrite decide_True by lia.
    rewrite last_lookup.
    replace (Z.to_nat (Z.of_nat (length l) + -1)) with (pred (length l)) by lia.
    done.
Qed.
End iloc.

(** ** The store *)

Lemma lookup_snoc_length (h : heap) (o : obj) : (h ++ [o]) !! length h = Some o.
Proof. by apply list_lookup_middle. Qed.

Lemma insert_snoc_length (h : heap) (o o' : obj) :
  <[length h := o']> (h ++ [o]) = h ++ [o'].
Proof. rewrite insert_app_r_alt by lia. by rewrite Nat.sub_diag. Qed.

Lemma lookup_extend (h extra : heap) (l : loc) (o : obj) :
  h !! l = Some o → (h ++ extra) !! l = Some o.
Proof. intros H. by apply lookup_app_l_Some. Qed.

(** ** Columns *)

Lemma length_diff_from p l : length (diff_from p l) = length l.
Proof. revert p; induction l; intros; simpl; auto. Qed.

Lemma length_diff l : length (diff l) = length l.
Proof. destruct l; simpl; auto using length_diff_from. Qed.

Lemma length_monthly_delta_series d :
  length (monthly_delta_series d) = length d.
Proof.
  unfold monthly_delta_series, fillna_series.
  rewrite length_zip_with, length_diff, length_fmap. lia.
Qed.

Lemma mapM_assign_monthly_downloads d vs :
  length vs = length d →
  mapM monthly_downloads (assign_monthly_downloads d vs) = Some vs.
Proof.
  revert vs; induction d as [|r d IH]; intros [|v vs] Hl; simpl in *; try done.
  injection Hl as Hl. rewrite (IH vs Hl). done.
Qed.

Lemma assign_monthly_downloads_interval d vs :
  length vs = length d →
  interval <$> assign_monthly_downloads d vs = interval <$> d.
Proof.
  revert vs; induction d as [|r d IH]; intros [|v vs] Hl; simpl in *; try done.
  injection Hl as Hl. f_equal. by apply IH.
Qed.

Lemma assign_monthly_downloads_downloads_total d vs :
  length vs = length d →
  downloads_total <$> assign_monthly_downloads d vs = downloads_total <$> d.
Proof.
  revert vs; induction d as [|r d IH]; intros [|v vs] Hl; simpl in *; try done.
  injection Hl as Hl. f_equal. by apply IH.
Qed.

(** ** What the callbacks compute *)

Lemma update_graph_run g h df sel :
  h !! g_df g = Some (ODataFrame df) →
  update_graph g sel h = (graph_result df sel, h ++ graph_allocations df sel).
Proof.
  intros Hdf.
  unfold update_graph, graph_result, graph_allocations, episode_series.
  cbv beta delta [mbind M_bind mret M_ret lift get_monthly_downloads].
  unfold get_frame at 1. rewrite Hdf.
  unfold new_frame at 1.
  set (m := filter _ df).
  unfold get_frame at 1. rewrite lookup_snoc_length.
  unfold new_frame at 1.
  unfold get_frame at 1. rewrite lookup_snoc_length.
  unfold new_frame at 1.
  set (s := sort_values_interval m).
  unfold get_frame at 1. rewrite lookup_snoc_length.
  destruct (iloc (published_at <$> s) 0) as [published|e].
  2:{ by rewrite <- !app_assoc. }
  fold (monthly_delta_series s).
  unfold set_monthly_downloads. rewrite lookup_snoc_length.
  rewrite decide_True by apply length_monthly_delta_series.
  rewrite insert_snoc_length.
  unfold get_frame. rewrite !lookup_snoc_length.
  rewrite mapM_assign_monthly_downloads by apply length_monthly_delta_series.
  simpl to_int at 1. cbv iota beta. rewrite lookup_snoc_length.
  rewrite assign_monthly_downloads_interval,
    assign_monthly_downloads_downloads_total
    by apply length_monthly_delta_series.
  rewrite <- !app_assoc. simpl app.
  destruct (iloc (monthly_delta_series s) (-1)) as [latest|e]; [|done].
  destruct (to_int latest); done.
Qed.

Lemma update_monthly_stats_graph_run g h am v :
  h !! g_all_months g = Some (OMonthTable am) →
  update_monthly_stats_graph g v h = (Ok (monthly_figure am), h).
Proof.
  intros Ham. unfold update_monthly_stats_graph.
  cbv beta delta [mbind M_bind mret M_ret get_month_table].
  by rewrite Ham.
Qed.

(** ** The series of one episode *)

Lemma episode_series_Permutation df sel :
  episode_series df sel ≡ₚ filter (λ r, episode_title r = sel) df.
Proof. apply sort_values_interval_Permutation. Qed.

Lemma filter_title_absent (df : DataFrame) sel :
  sel ∉ episode_title <$> df → filter (λ r, episode_title r = sel) df = [].
Proof.
  induction df as [|r df IH]; [done|].
  rewrite fmap_cons, not_elem_of_cons. intros [Hne Hnot].
  rewrite filter_cons, decide_False by (by intros <-). auto.
Qed.

Lemma episode_series_absent df sel :
  sel ∉ episode_title <$> df → episode_series df sel = [].
Proof.
  intros Hnot. unfold episode_series. by rewrite filter_title_absent.
Qed.

Lemma episode_series_present df sel :
  sel ∈ episode_title <$> df → episode_series df sel ≠ [].
Proof.
  intros Hin Hnil. apply list_elem_of_fmap in Hin as (r & -> & Hr).
  assert (r ∈ episode_series df (episode_title r)) as Hr'.
  { rewrite episode_series_Permutation. by apply list_elem_of_filter. }
  rewrite Hnil in Hr'. by apply elem_of_nil in Hr'.
Qed.

(** ** The delta column *)

Lemma fillna_diff_from_lookup_0 p x xs :
  fillna_series (diff_from p (x :: xs)) (x :: xs) !! 0%nat
  = Some (if isna (cell_sub x p) then x else cell_sub x p).
Proof. done. Qed.

Lemma diff_from_lookup_S p xs i a b :
  xs !! i = Some a → xs !! S i = Some b →
  diff_from p xs !! S i = Some (cell_sub b a).
Proof.
  revert p i. induction xs as [|x xs IH]; intros p i Ha Hb; [done|].
  destruct i as [|i]; simpl in *.
  - destruct xs; simpl in *; congruence.
  - eauto.
Qed.

Lemma diff_lookup_S xs i a b :
  xs !! i = Some a → xs !! S i = Some b → diff xs !! S i = Some (cell_sub b a).
Proof.
  destruct xs as [|x xs]; [done|]. intros Ha Hb. simpl.
  destruct i as [|i]; simpl in *.
  - destruct xs; simpl in *; congruence.
  - eauto using diff_from_lookup_S.
Qed.

(** a delta is missing exactly where the cumulative value is missing *)
Lemma fillna_cell_sub_isna x p :
  isna (if isna (cell_sub x p) then x else cell_sub x p) = isna x.
Proof. by destruct x, p. Qed.

Lemma fillna_diff_from_last p xs :
  isna <$> last (fillna_series (diff_from p xs) xs) = isna <$> last xs.
Proof.
  revert p. induction xs as [|x xs IH]; intros p; [done|].
  simpl. destruct xs as [|y xs].
  - simpl. f_equal. apply fillna_cell_sub_isna.
  - apply (IH x).
Qed.

Lemma monthly_delta_series_last_isna d :
  isna <$> last (monthly_delta_series d) = isna <$> last (downloads_total <$> d).
Proof.
  unfold monthly_delta_series. destruct (downloads_total <$> d) as [|x xs]; [done|].
  simpl. destruct xs as [|y xs].
  - simpl. by destruct x.
  - apply (fillna_diff_from_last x (y :: xs)).
Qed.

(** the sum of integer deltas telescopes *)
Lemma sum_fillna_diff_from p zs :
  sum_skipna (fillna_series (diff_from (Num p) (Num <$> zs)) (Num <$> zs))
  = default p (last zs) - p.
Proof.
  revert p. induction zs as [|z zs IH]; intros p.
  { cbn. lia. }
  cbn [fmap list_fmap diff_from fillna_series zip_with cell_sub isna sum_skipna].
  fold (fillna_series (diff_from (Num z) (Num <$> zs)) (Num <$> zs)).
  rewrite IH. destruct zs as [|z' zs]; [cbn; lia|].
  destruct (last (z' :: zs)) as [w|] eqn:Hl; [|by apply last_None in Hl].
  rewrite last_cons, Hl. cbn. lia.
Qed.

Lemma sum_fillna_diff zs :
  sum_skipna (fillna_series (diff (Num <$> zs)) (Num <$> zs))
  = default 0 (last zs).
Proof.
  destruct zs as [|z zs]; [done|].
  cbn [fmap list_fmap diff fillna_series zip_with isna sum_skipna].
  fold (fillna_series (diff_from (Num z) (Num <$> zs)) (Num <$> zs)).
  rewrite sum_fillna_diff_from. destruct zs as [|z' zs]; [cbn; lia|].
  destruct (last (z' :: zs)) as [w|] eqn:Hl; [|by apply last_None in Hl].
  rewrite last_cons, Hl. cbn. lia.
Qed.

(** ** One ascending order *)

Lemma NoDup_fmap_inj_on {A B : Type} (f : A → B) (l : list A) x y :
  NoDup (f <$> l) → x ∈ l → y ∈ l → f x = f y → x = y.
Proof.
  induction l as [|a l IH]; intros Hnd Hx Hy Hf; [by apply elem_of_nil in Hx|].
  rewrite fmap_cons in Hnd. apply NoDup_cons in Hnd as [Ha Hnd].
  apply elem_of_cons in Hx as [->|Hx]; apply elem_of_cons in Hy as [->|Hy].
  - done.
  - destruct Ha. rewrite Hf. by apply list_elem_of_fmap_2.
  - destruct Ha. rewrite <- Hf. by apply list_elem_of_fmap_2.
  - by apply IH.
Qed.

Lemma episode_series_unique df sel s' :
  NoDup (interval <$> filter (λ r, episode_title r = sel) df) →
  s' ≡ₚ filter (λ r, episode_title r = sel) df →
  StronglySorted (λ r1 r2, ts_le (interval r1) (interval r2)) s' →
  s' = episode_series df sel.
Proof.
  intros Hnd Hperm Hsorted.
  apply (StronglySorted_unique_strong
           (λ r1 r2, ts_le (interval r1) (interval r2))).
  - intros x1 x2 Hx1 Hx2 H12 H21.
    apply (NoDup_fmap_inj_on interval _ x1 x2 Hnd).
    + by rewrite <- Hperm.
    + by rewrite <- (episode_series_Permutation df sel).
    + by apply (anti_symm ts_le).
  - done.
  - apply sort_values_interval_sorted.
  - by rewrite Hperm, episode_series_Permutation.
Qed.

(** ** Exactness in float64 *)

Lemma magnitude_nonneg l : 0 ≤ magnitude l.
Proof.
  induction l as [|c l IH]; [done|].
  change (0 ≤ cell_abs c + magnitude l). destruct c; simpl; lia.
Qed.

Global Instance magnitude_Permutation : Proper ((≡ₚ) ==> (=)) magnitude.
Proof.
  intros l1 l2 HP. induction HP as [|x l1 l2 _ IH|x y l|l1 l2 l3 _ IH1 _ IH2].
  - done.
  - change (cell_abs x + magnitude l1 = cell_abs x + magnitude l2). lia.
  - change (cell_abs y + (cell_abs x + magnitude l)
            = cell_abs x + (cell_abs y + magnitude l)). lia.
  - congruence.
Qed.

Lemma magnitude_elem_of c l : c ∈ l → cell_abs c ≤ magnitude l.
Proof.
  induction l as [|x l IH]; intros Hc; [by apply elem_of_nil in Hc|].
  pose proof (magnitude_nonneg l).
  change (cell_abs c ≤ cell_abs x + magnitude l).
  apply elem_of_cons in Hc as [->|Hc]; [lia|].
  specialize (IH Hc). destruct x; simpl; lia.
Qed.

Lemma sum_skipna_magnitude l : Z.abs (sum_skipna l) ≤ magnitude l.
Proof.
  induction l as [|c l IH]; [done|].
  change (magnitude (c :: l)) with (cell_abs c + magnitude l).
  destruct c; simpl; lia.
Qed.

Lemma magnitude_fillna_diff_from p xs :
  magnitude (fillna_series (diff_from p xs) xs)
  ≤ cell_abs p + 2 * magnitude xs.
Proof.
  revert p. induction xs as [|x xs IH]; intros p.
  { simpl. destruct p; simpl; lia. }
  change (cell_abs (if isna (cell_sub x p) then x else cell_sub x p)
          + magnitude (fillna_series (diff_from x xs) xs)
          ≤ cell_abs p + 2 * (cell_abs x + magnitude xs)).
  specialize (IH x). pose proof (magnitude_nonneg xs).
  destruct x as [a|], p as [b|]; simpl in *; lia.
Qed.

Lemma magnitude_monthly_delta_series d :
  magnitude (monthly_delta_series d) ≤ 2 * magnitude (downloads_total <$> d).
Proof.
  unfold monthly_delta_series.
  destruct (downloads_total <$> d) as [|x xs]; [done|].
  change (cell_abs x + magnitude (fillna_series (diff_from x xs) xs)
          ≤ 2 * (cell_abs x + magnitude xs)).
  pose proof (magnitude_fillna_diff_from x xs). lia.
Qed.

Lemma well_recorded_exact df sel :
  well_recorded df sel →
  float_exact (sum_skipna (monthly_delta_series (episode_series df sel))) ∧
  (∀ z, Num z ∈ monthly_delta_series (episode_series df sel) →
        float_exact z) ∧
  (∀ z, Num z ∈ downloads_total <$> episode_series df sel → float_exact z).
Proof.
  intros [_ Hex]. unfold float_exact_column in Hex.
  rewrite <- (episode_series_Permutation df sel) in Hex.
  pose proof (magnitude_monthly_delta_series (episode_series df sel)) as Hd.
  pose proof (magnitude_nonneg (downloads_total <$> episode_series df sel)).
  unfold float_exact. split; [|split].
  - pose proof (sum_skipna_magnitude
                  (monthly_delta_series (episode_series df sel))). lia.
  - intros z Hz. apply magnitude_elem_of in Hz. simpl in Hz. lia.
  - intros z Hz. apply magnitude_elem_of in Hz. simpl in Hz. lia.
Qed.

(** ** Thousands separators *)

Lemma append_cons c s t : String c s +:+ t = String c (s +:+ t).
Proof. done. Qed.

Lemma append_empty s : s +:+ "" = s.
Proof.
  induction s as [|c s IH]; [done|]. rewrite append_cons. by f_equal.
Qed.

Lemma append_assoc s t u : (s +:+ t) +:+ u = s +:+ (t +:+ u).
Proof.
  induction s as [|c s IH]; [done|]. rewrite !append_cons. by f_equal.
Qed.

Lemma rev_app_append s t : String.rev_app s t = String.rev s +:+ t.
Proof.
  revert t. unfold String.rev. induction s as [|c s IH]; intros t; [done|].
  simpl. rewrite (IH (String c t)), (IH (String c "")).
  by rewrite append_assoc.
Qed.

Lemma rev_append s t : String.rev (s +:+ t) = String.rev t +:+ String.rev s.
Proof.
  induction s as [|c s IH].
  - by rewrite append_empty.
  - rewrite append_cons. unfold String.rev at 1 3. simpl.
    rewrite !rev_app_append, IH. by rewrite append_assoc.
Qed.

Lemma rev_rev s : String.rev (String.rev s) = s.
Proof.
  induction s as [|c s IH]; [done|].
  unfold String.rev at 2. simpl. rewrite rev_app_append, rev_append, IH.
  done.
Qed.

Lemma strip_commas_append s t :
  strip_commas (s +:+ t) = strip_commas s +:+ strip_commas t.
Proof.
  induction s as [|c s IH]; [done|]. rewrite append_cons. simpl.
  rewrite IH. by destruct (decide (c = ","%char)).
Qed.

Lemma strip_commas_rev s :
  strip_commas (String.rev s) = String.rev (strip_commas s).
Proof.
  induction s as [|c s IH]; [done|].
  unfold String.rev at 1. simpl. rewrite rev_app_append, strip_commas_append, IH.
  simpl. destruct (decide (c = ","%char)).
  - by rewrite append_empty.
  - unfold String.rev at 2. simpl. by rewrite rev_app_append.
Qed.

Lemma strip_commas_group3_rev k s :
  strip_commas (group3_rev k s) = strip_commas s.
Proof.
  revert k. induction s as [|c s IH]; intros k; [done|].
  destruct k as [|[|[|[|k]]]]; simpl; rewrite IH; done.
Qed.

Lemma strip_commas_group3 s : strip_commas (group3 s) = strip_commas s.
Proof.
  unfold group3.
  by rewrite strip_commas_rev, strip_commas_group3_rev, strip_commas_rev,
    rev_rev.
Qed.

Lemma strip_commas_digit d s :
  strip_commas (String (pretty_N_char d) s)
  = String (pretty_N_char d) (strip_commas s).
Proof. unfold pretty_N_char. by repeat case_match. Qed.

Lemma strip_commas_pretty_N_go x s :
  strip_commas (pretty_N_go x s) = pretty_N_go x (strip_commas s).
Proof.
  revert s. induction (N.lt_wf_0 x) as [x _ IH]; intros s.
  assert (x = 0 ∨ 0 < x)%N as [->|Hx] by lia.
  - by rewrite !pretty_N_go_0.
  - rewrite (pretty_N_go_step x s), (pretty_N_go_step x (strip_commas s))
      by done.
    rewrite IH by (by apply N.div_lt). by rewrite strip_commas_digit.
Qed.

Lemma strip_commas_pretty_positive (p : positive) :
  strip_commas (pretty p) = pretty p.
Proof.
  unfold pretty, pretty_positive, pretty, pretty_N.
  rewrite decide_False by done. by rewrite strip_commas_pretty_N_go.
Qed.

(** without its separators the text is the decimal notation *)
Lemma strip_commas_format_thousands z :
  strip_commas (format_thousands z) = pretty z.
Proof.
  unfold format_thousands. destruct (decide (z < 0)) as [Hneg|Hpos].
  - destruct z as [|p|p]; [lia..|].
    change (- Z.neg p) with (Z.pos p).
    change (pretty (Z.neg p)) with ("-" +:+ pretty p).
    change (pretty (Z.pos p)) with (pretty p).
    change (strip_commas ("-" +:+ group3 (pretty p)))
      with ("-" +:+ strip_commas (group3 (pretty p))).
    by rewrite strip_commas_group3, strip_commas_pretty_positive.
  - destruct z as [|p|p]; [done| |lia].
    change (pretty (Z.pos p)) with (pretty p).
    by rewrite strip_commas_group3, strip_commas_pretty_positive.
Qed.

Lemma format_thousands_inj z1 z2 :
  format_thousands z1 = format_thousands z2 → z1 = z2.
Proof.
  intros Heq. apply (inj pretty).
  by rewrite <- !strip_commas_format_thousands, Heq.
Qed.

(** *** Where the separators are *)

Lemma format_thousands_negative z :
  z < 0 → format_thousands z = "-" +:+ format_thousands (- z).
Proof.
  intros Hz. unfold format_thousands.
  rewrite decide_True by done. rewrite decide_False by lia.
  by rewrite Z.opp_involutive || done.
Qed.

Lemma format_thousands_below_1000 z :
  0 ≤ z < 1000 → format_thousands z = pretty z.
Proof.
  intros Hz.
  assert (Forall (λ n, format_thousands (Z.of_nat n) = pretty (Z.of_nat n))
            (seq 0 1000)) as Hall.
  { apply (bool_decide_unpack _). by vm_compute. }
  replace z with (Z.of_nat (Z.to_nat z)) by lia.
  apply (proj1 (Forall_forall _ _) Hall), elem_of_seq. lia.
Qed.

Lemma append_nonempty s c t : s +:+ String c t ≠ "".
Proof. by destruct s. Qed.

Lemma pretty_N_go_append x s : pretty_N_go x s = pretty_N_go x "" +:+ s.
Proof.
  revert s. induction (N.lt_wf_0 x) as [x _ IH]; intros s.
  assert (x = 0 ∨ 0 < x)%N as [->|Hx] by lia.
  - by rewrite !pretty_N_go_0.
  - rewrite (pretty_N_go_step x s), (pretty_N_go_step x "") by done.
    rewrite (IH (x `div` 10)%N) by (by apply N.div_lt).
    rewrite (IH (x `div` 10)%N (N.div_lt x 10 Hx eq_refl)
               (String (pretty_N_char (x `mod` 10)) "")).
    by rewrite append_assoc.
Qed.

Lemma pretty_N_nonzero (x : N) : (0 < x)%N → pretty x = pretty_N_go x "".
Proof. intros Hx. unfold pretty, pretty_N. by rewrite decide_False by lia. Qed.

Lemma pretty_N_nonempty (x : N) : pretty x ≠ "".
Proof.
  assert (x = 0 ∨ 0 < x)%N as [->|Hx] by lia; [done|].
  rewrite pretty_N_nonzero, pretty_N_go_step, pretty_N_go_append by done.
  apply append_nonempty.
Qed.

Lemma pretty_N_split (x : N) :
  (1000 ≤ x)%N →
  pretty x
  = pretty (x `div` 1000)%N
    +:+ String (pretty_N_char ((x `div` 100) `mod` 10))
          (String (pretty_N_char ((x `div` 10) `mod` 10))
             (String (pretty_N_char (x `mod` 10)) "")).
Proof.
  intros Hx.
  assert (0 < x `div` 10)%N by (apply N.div_str_pos; lia).
  assert (0 < (x `div` 10) `div` 10)%N by (rewrite N.Div0.div_div; apply N.div_str_pos; lia).
  assert (0 < x `div` 1000)%N by (apply N.div_str_pos; lia).
  rewrite (pretty_N_nonzero x), (pretty_N_nonzero (x `div` 1000)) by lia.
  rewrite (pretty_N_go_step x), (pretty_N_go_step (x `div` 10)),
    (pretty_N_go_step ((x `div` 10) `div` 10)) by lia.
  rewrite pretty_N_go_append. rewrite !N.Div0.div_div.
  done.
Qed.

Lemma digit_of_N (d : N) : (d < 10)%N → pretty_N_char d = digit (Z.of_N d).
Proof.
  intros Hd.
  assert (d = 0 ∨ d = 1 ∨ d = 2 ∨ d = 3 ∨ d = 4 ∨ d = 5 ∨ d = 6 ∨ d = 7
          ∨ d = 8 ∨ d = 9)%N as Hd' by lia.
  repeat (destruct Hd' as [->|Hd']); try subst d; reflexivity.
Qed.

Lemma pretty_Z_to_N z : 0 ≤ z → pretty z = pretty (Z.to_N z).
Proof. by destruct z. Qed.

Lemma pretty_Z_split z :
  1000 ≤ z → pretty z = pretty (z / 1000) +:+ fmt3 (z mod 1000).
Proof.
  intros Hz.
  rewrite (pretty_Z_to_N z), (pretty_Z_to_N (z / 1000))
    by (try apply Z.div_pos; lia).
  rewrite pretty_N_split by lia.
  rewrite !digit_of_N by (apply N.mod_lt; lia).
  rewrite !N2Z.inj_mod, !N2Z.inj_div, Z2N.id by lia.
  change (Z.of_N 10) with 10. change (Z.of_N 100) with 100.
  rewrite Z2N.inj_div by lia. change (Z.to_N 1000) with 1000%N.
  unfold fmt3.
  replace ((z `div` 100) `mod` 10) with ((z `mod` 1000) `div` 100)
    by (Z.div_mod_to_equations; lia).
  replace ((z `div` 10) `mod` 10) with (((z `mod` 1000) `div` 10) `mod` 10)
    by (Z.div_mod_to_equations; lia).
  replace (z `mod` 10) with ((z `mod` 1000) `mod` 10) at 1
    by (Z.div_mod_to_equations; lia).
  done.
Qed.

Lemma rev_nonempty s : s ≠ "" → String.rev s ≠ "".
Proof. intros Hs Hrev. apply Hs. by rewrite <- (rev_rev s), Hrev. Qed.

Lemma group3_snoc3 s a b c :
  s ≠ "" →
  group3 (s +:+ String a (String b (String c "")))
  = group3 s +:+ "," +:+ String a (String b (String c "")).
Proof.
  intros Hs. unfold group3. rewrite rev_append.
  change (String.rev (String a (String b (String c ""))))
    with (String c (String b (String a ""))).
  rewrite !append_cons. change ("" +:+ String.rev s) with (String.rev s).
  pose proof (rev_nonempty s Hs) as Hrev.
  destruct (String.rev s) as [|d t]; [done|].
  change (group3_rev 0 (String c (String b (String a (String d t)))))
    with (String c (String b (String a (String "," (group3_rev 0 (String d t)))))).
  change (String c (String b (String a (String "," (group3_rev 0 (String d t))))))
    with (String c (String b (String a (String "," ""))) +:+ group3_rev 0 (String d t)).
  by rewrite rev_append.
Qed.

Lemma format_thousands_from_1000 z :
  1000 ≤ z →
  format_thousands z
  = format_thousands (z / 1000) +:+ "," +:+ fmt3 (z mod 1000).
Proof.
  intros Hz.
  assert (1 ≤ z / 1000) by (apply Z.div_le_lower_bound; lia).
  unfold format_thousands. rewrite !decide_False by lia.
  rewrite pretty_Z_split by done. unfold fmt3. apply group3_snoc3.
  rewrite pretty_Z_to_N by lia. apply pretty_N_nonempty.
Qed.

(** ** Claims about [update_graph] *)

(** C1 (as stated, refuted): in the scenario table the title "C" does not
    occur, and the callback returns no result for it: it raises. *)
Lemma update_graph_absent_title_no_result :
  ("C" ∉ (episode_title <$> scenario_df)) ∧
  ∀ v, (update_graph (load scenario_df).1 "C" (load scenario_df).2).1 ≠ Ok v.
Proof.
  split.
  - apply (bool_decide_unpack _). by vm_compute.
  - intros v. by vm_compute.
Qed.

(** C1 (amended): for every title that does not occur in the table,
    [update_graph] raises IndexError: it returns no figure and no
    statistics. *)
Theorem update_graph_absent_title g h df sel :
  h !! g_df g = Some (ODataFrame df) →
  sel ∉ episode_title <$> df →
  (update_graph g sel h).1 = Raise IndexError.
Proof.
  intros Hdf Hnot. rewrite (update_graph_run g h df sel Hdf). simpl.
  unfold graph_result. by rewrite (episode_series_absent df sel Hnot).
Qed.

Lemma update_graph_absent_title_witness :
  (update_graph (load scenario_df).1 "C" (load scenario_df).2).1
  = Raise IndexError.
Proof.
  apply (update_graph_absent_title _ _ (assign_publish_month scenario_df)).
  - reflexivity.
  - apply (bool_decide_unpack _). by vm_compute.
Defined.

Lemma graph_result_present df sel :
  sel ∈ episode_title <$> df →
  ∃ r s', episode_series df sel = r :: s' ∧
    iloc (published_at <$> episode_series df sel) 0 = Ok (published_at r) ∧
    ∃ c, last (monthly_delta_series (episode_series df sel)) = Some c ∧
         iloc (monthly_delta_series (episode_series df sel)) (-1) = Ok c.
Proof.
  intros Hin. pose proof (episode_series_present df sel Hin) as Hne.
  destruct (episode_series df sel) as [|r s'] eqn:Hs; [done|].
  exists r, s'. split; [done|]. split; [by rewrite iloc_first|].
  rewrite iloc_last.
  destruct (last (monthly_delta_series (r :: s'))) as [c|] eqn:Hl; [eauto|].
  apply last_None in Hl. apply (f_equal length) in Hl.
  by rewrite length_monthly_delta_series in Hl.
Qed.

(** C10: when the selected title occurs in the table, the filtered and
    sorted series is not empty, both positional accesses of [update_graph]
    (first publish date, last delta) succeed, and the callback does not
    raise IndexError. *)
Theorem update_graph_present_title_in_bounds g h df sel :
  h !! g_df g = Some (ODataFrame df) →
  sel ∈ episode_title <$> df →
  filter (λ r, episode_title r = sel) df ≠ [] ∧
  episode_series df sel ≠ [] ∧
  (∃ p, iloc (published_at <$> episode_series df sel) 0 = Ok p) ∧
  (∃ c, iloc (monthly_delta_series (episode_series df sel)) (-1) = Ok c) ∧
  (update_graph g sel h).1 ≠ Raise IndexError.
Proof.
  intros Hdf Hin.
  destruct (graph_result_present df sel Hin) as (r & s' & Hs & Hp & c & Hl & Hc).
  split.
  { intros Hnil. pose proof (episode_series_Permutation df sel) as HP.
    rewrite Hnil, Hs in HP. by apply Permutation_nil_r in HP. }
  split; [by rewrite Hs|]. split; [eauto|]. split; [eauto|].
  rewrite (update_graph_run g h df sel Hdf). simpl.
  unfold graph_result. rewrite Hp, Hc. by destruct c.
Qed.

Lemma update_graph_present_title_in_bounds_witness :
  (update_graph (load scenario_df).1 "A" (load scenario_df).2).1
  ≠ Raise IndexError.
Proof.
  apply (update_graph_present_title_in_bounds _ _
           (assign_publish_month scenario_df)).
  - reflexivity.
  - apply (bool_decide_unpack _). by vm_compute.
Defined.

Lemma monthly_delta_series_numeric d zs :
  downloads_total <$> d = Num <$> zs →
  monthly_delta_series d = fillna_series (diff (Num <$> zs)) (Num <$> zs).
Proof. intros H. unfold monthly_delta_series. by rewrite H. Qed.

Lemma fillna_diff_lookup_S xs i a b :
  xs !! i = Some (Num a) → xs !! S i = Some (Num b) →
  fillna_series (diff xs) xs !! S i = Some (Num (b - a)).
Proof.
  intros Ha Hb. unfold fillna_series. rewrite lookup_zip_with.
  rewrite (diff_lookup_S xs i (Num a) (Num b) Ha Hb), Hb. done.
Qed.

Lemma graph_allocations_lookup h df sel r s' :
  episode_series df sel = r :: s' →
  (h ++ graph_allocations df sel) !! (length h + 2)%nat
  = Some (ODataFrame (assign_monthly_downloads (episode_series df sel)
                        (monthly_delta_series (episode_series df sel)))).
Proof.
  intros Hs. rewrite lookup_app_r by lia.
  replace (length h + 2 - length h)%nat with 2%nat by lia.
  unfold graph_allocations. rewrite Hs. by rewrite iloc_first.
Qed.

(** C2 (as stated, refuted): episode "A" of [gap_df] occurs in the table
    with the cumulative values 100, missing, 250 at three distinct
    intervals.  Its delta column is 100, missing, 250: the third element is
    not a difference, and the deltas sum to 350, not to the final
    cumulative value 250.  The callback shows 350 as the total. *)
Lemma monthly_deltas_with_gap_exceed_final_total :
  ("A" ∈ episode_title <$> assign_publish_month gap_df) ∧
  well_recorded (assign_publish_month gap_df) "A" ∧
  downloads_total <$> episode_series (assign_publish_month gap_df) "A"
    = [Num 100; NaN; Num 250] ∧
  monthly_delta_series (episode_series (assign_publish_month gap_df) "A")
    = [Num 100; NaN; Num 250] ∧
  sum_skipna
    (monthly_delta_series (episode_series (assign_publish_month gap_df) "A"))
    = 350 ∧
  last (downloads_total <$> episode_series (assign_publish_month gap_df) "A")
    = Some (Num 250) ∧
  ∃ fig, (update_graph (load gap_df).1 "A" (load gap_df).2).1
         = Ok (fig, "350", "250").
Proof.
  split; [apply (bool_decide_unpack _); by vm_compute|].
  split.
  { split; [apply (bool_decide_unpack _); by vm_compute|].
    unfold float_exact_column. by vm_compute. }
  do 4 (split; [by vm_compute|]).
  eexists. by vm_compute.
Qed.

(** C2 (amended): for a title of the table whose rows have pairwise
    distinct intervals and whose cumulative values are all present
    integers, twice the sum of their magnitudes being at most 2^53: the
    rows have one ascending order of intervals; the delta column that
    [update_graph] stores for the rows in that order starts with the first
    cumulative value, continues with the successive differences, and sums
    to the last cumulative value.  Every delta and the sum are of a
    magnitude on which float64 is exact, and the sum is the total the
    callback reports: the text it returns is, without its separators, the
    decimal notation of the last cumulative value. *)
Theorem monthly_deltas_sum_to_final_total g h df sel zs :
  h !! g_df g = Some (ODataFrame df) →
  sel ∈ episode_title <$> df →
  well_recorded df sel →
  downloads_total <$> episode_series df sel = Num <$> zs →
  let s := episode_series df sel in
  let deltas := monthly_delta_series s in
  s ≡ₚ filter (λ r, episode_title r = sel) df ∧
  StronglySorted (λ r1 r2, ts_le (interval r1) (interval r2)) s ∧
  (∀ s', s' ≡ₚ filter (λ r, episode_title r = sel) df →
         StronglySorted (λ r1 r2, ts_le (interval r1) (interval r2)) s' →
         s' = s) ∧
  (update_graph g sel h).2 !! (length h + 2)%nat
    = Some (ODataFrame (assign_monthly_downloads s deltas)) ∧
  length deltas = length zs ∧
  (∃ first, zs !! 0%nat = Some first ∧ deltas !! 0%nat = Some (Num first)) ∧
  (∀ i a b, zs !! i = Some a → zs !! S i = Some b →
            deltas !! S i = Some (Num (b - a))) ∧
  (∀ z, Num z ∈ deltas → float_exact z) ∧
  ∃ final, last zs = Some final ∧ sum_skipna deltas = final ∧
    float_exact final ∧
    ∃ fig total latest,
      (update_graph g sel h).1 = Ok (fig, total, latest) ∧
      total = format_thousands final ∧
      strip_commas total = pretty final.
Proof.
  intros Hdf Hin Hwr Hzs s deltas.
  destruct (graph_result_present df sel Hin) as (r & s' & Hs & Hp & c & Hl & Hc).
  destruct (well_recorded_exact df sel Hwr) as (Hsum_exact & Hdeltas_exact & _).
  assert (deltas = fillna_series (diff (Num <$> zs)) (Num <$> zs)) as Hd
    by by apply monthly_delta_series_numeric.
  assert (length zs = length s) as Hlen.
  { apply (f_equal length) in Hzs. by rewrite !length_fmap in Hzs. }
  split; [apply episode_series_Permutation|].
  split; [apply sort_values_interval_sorted|].
  split; [intros s0; apply episode_series_unique, Hwr|].
  split.
  { rewrite (update_graph_run g h df sel Hdf). simpl.
    by apply (graph_allocations_lookup h df sel r s'). }
  split; [unfold deltas; by rewrite length_monthly_delta_series|].
  split.
  { destruct zs as [|z zs]; [subst s; rewrite Hs in Hlen; done|].
    exists z. split; [done|]. by rewrite Hd. }
  split.
  { intros i a b Ha Hb. rewrite Hd. apply fillna_diff_lookup_S.
    - by rewrite list_lookup_fmap, Ha.
    - by rewrite list_lookup_fmap, Hb. }
  split; [done|].
  destruct (last zs) as [final|] eqn:Hfinal.
  2:{ apply last_None in Hfinal. subst zs s. rewrite Hs in Hlen. done. }
  exists final. split; [done|].
  assert (sum_skipna deltas = final) as Hsum.
  { rewrite Hd, sum_fillna_diff, Hfinal. done. }
  split; [done|].
  split; [by rewrite <- Hsum|].
  rewrite (update_graph_run g h df sel Hdf). simpl. unfold graph_result.
  rewrite Hp, Hc. fold s. fold deltas. rewrite Hsum.
  pose proof (monthly_delta_series_last_isna s) as Hna.
  fold deltas in Hna. unfold s in Hl. fold s in Hl. fold deltas in Hl.
  rewrite Hl in Hna. unfold s in Hna.
  rewrite Hzs, fmap_last, Hfinal in Hna. simpl in Hna.
  destruct c as [z|]; [|done]. simpl.
  eexists _, _, _. split; [done|]. split; [done|].
  apply strip_commas_format_thousands.
Qed.

Lemma monthly_deltas_sum_to_final_total_witness :
  ∃ fig latest,
    (update_graph (load scenario_df).1 "A" (load scenario_df).2).1
    = Ok (fig, "250", latest).
Proof.
  pose proof (monthly_deltas_sum_to_final_total (load scenario_df).1
                (load scenario_df).2 (assign_publish_month scenario_df)
                "A" [100; 250]) as H.
  destruct H as (_ & _ & _ & _ & _ & _ & _ & _ & final & Hfinal & _ & _
                 & fig & total & latest & Hrun & Htotal & _).
  - reflexivity.
  - apply (bool_decide_unpack _). by vm_compute.
  - split; [apply (bool_decide_unpack _); by vm_compute|].
    unfold float_exact_column. by vm_compute.
  - by vm_compute.
  - injection Hfinal as <-. exists fig, latest. by rewrite Hrun, Htotal.
Defined.

(** C5: an episode with a single recorded interval, holding the integer
    [v] of a magnitude at most 2^53: its delta column is [v] alone, and the
    callback reports [v] as the total and [v] as the latest figure: each of
    the two texts it returns is, without its separators, the decimal
    notation of [v]. *)
Theorem update_graph_single_interval g h df sel r v :
  h !! g_df g = Some (ODataFrame df) →
  filter (λ r, episode_title r = sel) df = [r] →
  downloads_total r = Num v →
  float_exact v →
  monthly_delta_series (episode_series df sel) = [Num v] ∧
  ∃ total latest,
    (update_graph g sel h).1
    = Ok (graph_figure sel [r] (published_at r) v, total, latest) ∧
    total = format_thousands v ∧ latest = format_thousands v ∧
    strip_commas total = pretty v ∧ strip_commas latest = pretty v.
Proof.
  intros Hdf Hone Hv _.
  assert (episode_series df sel = [r]) as Hs.
  { unfold episode_series. by rewrite Hone. }
  assert (monthly_delta_series [r] = [Num v]) as Hd.
  { unfold monthly_delta_series. simpl. by rewrite Hv. }
  rewrite (update_graph_run g h df sel Hdf). simpl.
  unfold graph_result. rewrite Hs, Hd. split; [done|].
  rewrite iloc_first, iloc_last. simpl. rewrite Z.add_0_r.
  eexists _, _. split; [done|].
  by rewrite !strip_commas_format_thousands.
Qed.

Lemma update_graph_single_interval_witness :
  (update_graph (load scenario_df).1 "B" (load scenario_df).2).1
  = Ok (graph_figure "B"
          [mkRow "B" (at_midnight 2023 2 1) (at_midnight 2023 2 1) (Num 50)
             (Some (mkPeriod 2023 2)) None]
          (at_midnight 2023 2 1) 50,
        "50", "50").
Proof.
  destruct (update_graph_single_interval (load scenario_df).1
              (load scenario_df).2 (assign_publish_month scenario_df) "B"
              (mkRow "B" (at_midnight 2023 2 1) (at_midnight 2023 2 1) (Num 50)
                 (Some (mkPeriod 2023 2)) None) 50)
    as (_ & total & latest & Hrun & -> & -> & _).
  - reflexivity.
  - reflexivity.
  - reflexivity.
  - unfold float_exact. by vm_compute.
  - exact Hrun.
Defined.

(** ** Duplicates *)

Section drop_duplicates.
Context {A K : Type} `{EqDecision K} (key : A → K).
Implicit Types l : list A.

Lemma drop_duplicates_elem_of l a : a ∈ drop_duplicates key l → a ∈ l.
Proof.
  induction l as [|b l IH]; simpl; [done|].
  rewrite !elem_of_cons, list_elem_of_filter. intros [->|[_ Hin]]; auto.
Qed.

Lemma drop_duplicates_key l a :
  a ∈ l → key a ∈ key <$> drop_duplicates key l.
Proof.
  induction l as [|b l IH]; simpl; [by intros ?%elem_of_nil|].
  rewrite !elem_of_cons. intros [->|Hin]; [by left|].
  destruct (decide (key a = key b)) as [->|Hne]; [by left|].
  right. apply IH in Hin. apply list_elem_of_fmap in Hin as (c & Hc & Hin).
  apply list_elem_of_fmap. exists c. split; [done|].
  apply list_elem_of_filter. split; [congruence|done].
Qed.

Lemma drop_duplicates_NoDup l : NoDup (key <$> drop_duplicates key l).
Proof.
  induction l as [|b l IH]; simpl; [constructor|].
  constructor.
  - intros (c & Hc & Hin)%list_elem_of_fmap.
    apply list_elem_of_filter in Hin as [Hne _]. congruence.
  - revert IH. generalize (drop_duplicates key l). intros l'.
    induction l' as [|c l' IH']; [done|].
    rewrite fmap_cons, NoDup_cons. intros [Hc Hnd].
    rewrite filter_cons. case_decide; [|auto].
    rewrite fmap_cons. constructor; [|auto].
    intros (c' & Hc' & Hin)%list_elem_of_fmap.
    apply list_elem_of_filter in Hin as [_ Hin].
    apply Hc. apply list_elem_of_fmap. eauto.
Qed.

Lemma drop_duplicates_head l : head (drop_duplicates key l) = head l.
Proof. by destruct l. Qed.
End drop_duplicates.

Lemma elem_of_unique {K} `{EqDecision K} (l : list K) x : x ∈ unique l ↔ x ∈ l.
Proof.
  split; [apply drop_duplicates_elem_of|].
  intros Hin. apply (drop_duplicates_key id) in Hin.
  by rewrite list_fmap_id in Hin.
Qed.

Lemma NoDup_unique {K} `{EqDecision K} (l : list K) : NoDup (unique l).
Proof.
  pose proof (drop_duplicates_NoDup id l) as Hnd.
  by rewrite list_fmap_id in Hnd.
Qed.

(** C7 (as stated, refuted): the last recorded value of episode "A" is
    missing; the callback does not render anything, it raises ValueError. *)
Lemma update_graph_missing_last_value_raises :
  (update_graph (load missing_last_df).1 "A" (load missing_last_df).2).1
  = Raise ValueError.
Proof. by vm_compute. Qed.

(** C7 (amended): missing values are not validated.  For a title of the
    table whose rows have pairwise distinct intervals and whose values are
    each missing or an integer, twice the sum of the magnitudes being at
    most 2^53: the rows have one ascending order of intervals, the order
    of the series.  If the value of the last interval is present, the
    callback renders: the values, missing ones included, are the y-series
    of the chart, the total is the sum of the deltas that are present, and
    both statistics are integers on which float64 is exact, shown in
    decimal notation with separators.  If the value of the last interval
    is missing, the callback raises ValueError. *)
Theorem update_graph_missing_values g h df sel :
  h !! g_df g = Some (ODataFrame df) →
  sel ∈ episode_title <$> df →
  well_recorded df sel →
  episode_series df sel ≡ₚ filter (λ r, episode_title r = sel) df ∧
  StronglySorted (λ r1 r2, ts_le (interval r1) (interval r2))
    (episode_series df sel) ∧
  (∀ s', s' ≡ₚ filter (λ r, episode_title r = sel) df →
         StronglySorted (λ r1 r2, ts_le (interval r1) (interval r2)) s' →
         s' = episode_series df sel) ∧
  match last (downloads_total <$> episode_series df sel) with
  | Some NaN => (update_graph g sel h).1 = Raise ValueError
  | Some (Num _) =>
      ∃ fig total latest total_text latest_text,
        (update_graph g sel h).1 = Ok (fig, total_text, latest_text) ∧
        sc_y <$> lf_data fig = [downloads_total <$> episode_series df sel] ∧
        sum_skipna (monthly_delta_series (episode_series df sel)) = total ∧
        last (monthly_delta_series (episode_series df sel))
          = Some (Num latest) ∧
        float_exact total ∧ float_exact latest ∧
        total_text = format_thousands total ∧
        strip_commas total_text = pretty total ∧
        latest_text = format_thousands latest ∧
        strip_commas latest_text = pretty latest
  | None => False
  end.
Proof.
  intros Hdf Hin Hwr.
  split; [apply episode_series_Permutation|].
  split; [apply sort_values_interval_sorted|].
  split; [intros s0; apply episode_series_unique, Hwr|].
  destruct (graph_result_present df sel Hin) as (r & s' & Hs & Hp & c & Hl & Hc).
  destruct (well_recorded_exact df sel Hwr) as (Hsum_exact & Hdeltas_exact & _).
  pose proof (monthly_delta_series_last_isna (episode_series df sel)) as Hna.
  rewrite Hl in Hna.
  rewrite (update_graph_run g h df sel Hdf). simpl. unfold graph_result.
  rewrite Hp, Hc.
  destruct (last (downloads_total <$> episode_series df sel)) as [[z|]|];
    destruct c as [z'|]; try done.
  simpl. eexists _, _, z', _, _.
  split; [done|]. split; [done|]. split; [done|]. split; [done|].
  split; [done|].
  split; [apply Hdeltas_exact; by apply last_Some_elem_of|].
  by rewrite !strip_commas_format_thousands.
Qed.

Lemma update_graph_missing_values_witness :
  (update_graph (load missing_last_df).1 "A" (load missing_last_df).2).1
  = Raise ValueError.
Proof.
  refine (proj2 (proj2 (proj2
    (update_graph_missing_values (load missing_last_df).1
       (load missing_last_df).2 (assign_publish_month missing_last_df) "A"
       _ _ _)))).
  - reflexivity.
  - apply (bool_decide_unpack _). by vm_compute.
  - split; [apply (bool_decide_unpack _); by vm_compute|].
    unfold float_exact_column. by vm_compute.
Defined.

Lemma graph_result_in_bounds df sel :
  sel ∈ episode_title <$> df → graph_result df sel ≠ Raise IndexError.
Proof.
  intros Hin.
  destruct (graph_result_present df sel Hin) as (r & s' & Hs & Hp & c & Hl & Hc).
  unfold graph_result. rewrite Hp, Hc. by destruct c.
Qed.

(** ** The dropdown *)

(** C9: for a non-empty table the dropdown is built, its initial value is
    the title of the first row, that value is one of the option values and a
    title of the table, and the first render of the episode view with it
    does not run out of bounds. *)
Theorem dropdown_initial_value_is_an_option g h df :
  h !! g_df g = Some (ODataFrame df) →
  df ≠ [] →
  ∃ dd, episode_dropdown df = Ok dd ∧
        head (episode_title <$> df) = Some (dd_value dd) ∧
        (dd_options dd).*2 = unique (episode_title <$> df) ∧
        dd_value dd ∈ (dd_options dd).*2 ∧
        dd_value dd ∈ episode_title <$> df ∧
        (update_graph g (dd_value dd) h).1 ≠ Raise IndexError.
Proof.
  intros Hdf Hne. destruct df as [|r df]; [done|].
  unfold episode_dropdown. rewrite iloc_first. simpl head.
  eexists. split; [reflexivity|]. cbn [dd_value dd_options].
  assert (episode_title r ∈ episode_title <$> r :: df) as Hin
    by (rewrite fmap_cons; apply elem_of_cons; by left).
  assert (((λ t : string, (t, t)) <$> unique (episode_title <$> r :: df)).*2
          = unique (episode_title <$> r :: df)) as Hopts.
  { rewrite <- list_fmap_compose. apply list_fmap_id. }
  split; [done|]. split; [done|].
  split; [rewrite Hopts; by apply elem_of_unique|].
  split; [done|].
  rewrite (update_graph_run g h (r :: df) _ Hdf). simpl.
  by apply graph_result_in_bounds.
Qed.

Lemma dropdown_initial_value_is_an_option_witness :
  ∃ dd, episode_dropdown (assign_publish_month scenario_df) = Ok dd ∧
        dd_value dd = "A" ∧ (dd_options dd).*2 = ["A"; "B"].
Proof.
  destruct (dropdown_initial_value_is_an_option (load scenario_df).1
              (load scenario_df).2 (assign_publish_month scenario_df))
    as (dd & Hdd & Hhead & Hopts & _).
  - reflexivity.
  - discriminate.
  - exists dd. split; [exact Hdd|]. split.
    + simpl in Hhead. by injection Hhead.
    + rewrite Hopts. reflexivity.
Defined.


(** ** Requests and the shared table *)

Section serving.
Variables (g : globals) (df : DataFrame) (am : list month_row).

Lemma serve_extends q h :
  dataset_at g df am h → ∃ extra, (serve g q h).2 = h ++ extra.
Proof.
  intros [Hdf Ham]. destruct q as [v|v]; simpl.
  - rewrite (update_monthly_stats_graph_run g h am v Ham). simpl.
    exists []. by rewrite app_nil_r.
  - rewrite (update_graph_run g h df v Hdf). simpl. eauto.
Qed.

Lemma dataset_at_extend h extra : dataset_at g df am h → dataset_at g df am (h ++ extra).
Proof. intros [Hdf Ham]. split; by apply lookup_extend. Qed.

Lemma serve_all_extends qs h :
  dataset_at g df am h → ∃ extra, (serve_all g qs h).2 = h ++ extra.
Proof.
  revert h. induction qs as [|q qs IH]; intros h Hh; simpl.
  - exists []. by rewrite app_nil_r.
  - destruct (serve_extends q h Hh) as [e1 He1].
    destruct (serve g q h) as [r h1]. simpl in He1. subst h1.
    destruct (IH (h ++ e1) (dataset_at_extend h e1 Hh)) as [e2 He2].
    destruct (serve_all g qs (h ++ e1)) as [rs h2]. simpl in *. subst h2.
    exists (e1 ++ e2). by rewrite app_assoc.
Qed.

Lemma update_graph_stable sel h h' :
  dataset_at g df am h → dataset_at g df am h' →
  (update_graph g sel h').1 = (update_graph g sel h).1.
Proof.
  intros [Hdf _] [Hdf' _].
  by rewrite (update_graph_run g h df sel Hdf),
    (update_graph_run g h' df sel Hdf').
Qed.

Lemma update_monthly_stats_graph_stable sel h h' :
  dataset_at g df am h → dataset_at g df am h' →
  (update_monthly_stats_graph g sel h').1
  = (update_monthly_stats_graph g sel h).1.
Proof.
  intros [_ Ham] [_ Ham'].
  by rewrite (update_monthly_stats_graph_run g h am sel Ham),
    (update_monthly_stats_graph_run g h' am sel Ham').
Qed.
End serving.

Lemma load_dataset_at raw :
  dataset_at (load raw).1 (assign_publish_month raw) (all_months_of raw)
    (load raw).2.
Proof. by split. Qed.

(** C8: once the table and the monthly aggregate are in place, no sequence
    of callback invocations changes them: after any requests both objects,
    and every object that existed before, are as they were, and each
    callback answers any selection as it did at the start. *)
Theorem requests_leave_dataset_unchanged g df am h qs :
  dataset_at g df am h →
  dataset_at g df am (serve_all g qs h).2 ∧
  (∀ l o, h !! l = Some o → (serve_all g qs h).2 !! l = Some o) ∧
  (∀ sel, (update_graph g sel (serve_all g qs h).2).1
          = (update_graph g sel h).1) ∧
  (∀ sel, (update_monthly_stats_graph g sel (serve_all g qs h).2).1
          = (update_monthly_stats_graph g sel h).1) ∧
  (∀ sel, (update_graph g sel (update_graph g sel h).2).1
          = (update_graph g sel h).1).
Proof.
  intros Hh. destruct (serve_all_extends g df am qs h Hh) as [extra ->].
  pose proof (dataset_at_extend g df am h extra Hh) as Hh'.
  split; [done|]. split; [intros l o; apply lookup_extend|].
  split; [intros sel; by apply (update_graph_stable g df am)|].
  split; [intros sel; by apply (update_monthly_stats_graph_stable g df am)|].
  intros sel. apply (update_graph_stable g df am); [done|].
  destruct (serve_extends g df am (EpisodeGraph sel) h Hh) as [e He].
  simpl in He. destruct (update_graph g sel h) as [r h1]. simpl in *.
  subst h1. by apply dataset_at_extend.
Qed.

Lemma requests_leave_dataset_unchanged_witness :
  dataset_at (load scenario_df).1 (assign_publish_month scenario_df)
    (all_months_of scenario_df)
    (serve_all (load scenario_df).1
       [EpisodeGraph "A"; MonthlyStats "A"; EpisodeGraph "C"]
       (load scenario_df).2).2.
Proof.
  apply (requests_leave_dataset_unchanged (load scenario_df).1
           (assign_publish_month scenario_df) (all_months_of scenario_df)
           (load scenario_df).2
           [EpisodeGraph "A"; MonthlyStats "A"; EpisodeGraph "C"]).
  apply load_dataset_at.
Defined.

(** C6: the monthly callback ignores the selection.  In any state two
    selections give the same figure and the same store, and in a server
    started on a table, after any requests, that figure is the one drawn
    from the monthly aggregate computed at start-up. *)
Theorem monthly_view_independent_of_selection :
  (∀ g h v1 v2,
     update_monthly_stats_graph g v1 h = update_monthly_stats_graph g v2 h) ∧
  (∀ raw qs v,
     (update_monthly_stats_graph (load raw).1 v
        (serve_all (load raw).1 qs (load raw).2).2).1
     = Ok (monthly_figure (all_months_of raw))).
Proof.
  split; [done|]. intros raw qs v.
  destruct (serve_all_extends _ _ _ qs _ (load_dataset_at raw)) as [extra ->].
  destruct (dataset_at_extend _ _ _ _ extra (load_dataset_at raw)) as [_ Ham].
  by rewrite (update_monthly_stats_graph_run _ _ _ v Ham).
Qed.

(** ** Sorted lists *)

Section sorted.
Context {A : Type} (R : relation A).

Lemma StronglySorted_filter (P : A → Prop) `{∀ x, Decision (P x)} l :
  StronglySorted R l → StronglySorted R (filter P l).
Proof.
  induction 1 as [|a l Hl IH Hall]; [constructor|].
  rewrite filter_cons. case_decide; [|done].
  constructor; [done|].
  apply Forall_forall. intros x [_ Hx]%list_elem_of_filter.
  by apply (proj1 (Forall_forall _ _) Hall).
Qed.

Lemma StronglySorted_last `{!Reflexive R} l x y :
  StronglySorted R l → last l = Some x → y ∈ l → R y x.
Proof.
  induction 1 as [|a l Hl IH Hall]; [done|].
  intros Hlast Hy. destruct l as [|b l].
  - injection Hlast as <-. by apply list_elem_of_singleton in Hy as ->.
  - rewrite last_cons_cons in Hlast.
    apply elem_of_cons in Hy as [->|Hy]; [|by apply IH].
    apply (proj1 (Forall_forall _ _) Hall).
    by apply last_Some_elem_of.
Qed.

Lemma StronglySorted_by_key {B : Type} (f : B → A) (l : list B) :
  StronglySorted R (f <$> l) → StronglySorted (λ x y, R (f x) (f y)) l.
Proof.
  induction l as [|b l IH]; [constructor|].
  rewrite fmap_cons. intros [Hall Hl]%StronglySorted_cons.
  constructor; [by apply IH|].
  apply Forall_forall. intros x Hx.
  apply (proj1 (Forall_forall _ _) Hall), list_elem_of_fmap. eauto.
Qed.

(** a sorted list without duplicates is strictly sorted *)
Lemma StronglySorted_strict `{!AntiSymm (=) R} l :
  StronglySorted R l → NoDup l → StronglySorted (strict R) l.
Proof.
  induction 1 as [|a l Hl IH Hall]; [constructor|].
  intros [Ha Hnd]%NoDup_cons. constructor; [by apply IH|].
  apply Forall_forall. intros x Hx. apply strict_spec_alt.
  split; [by apply (proj1 (Forall_forall _ _) Hall)|].
  by intros ->.
Qed.
End sorted.

(** ** Grouping *)

Section groupby.
Context {A K : Type} `{EqDecision K} (R : relation K).
Context `{!RelDecision R, !PartialOrder R, !Total R}.
Context (key : A → option K).
Implicit Types l : list A.

Lemma groupby_keys l :
  (groupby R key l).*1 = merge_sort R (unique (omap key l)).
Proof.
  unfold groupby. rewrite <- list_fmap_compose. apply list_fmap_id.
Qed.

Lemma elem_of_groupby_keys l k :
  k ∈ (groupby R key l).*1 ↔ ∃ a, a ∈ l ∧ key a = Some k.
Proof.
  rewrite groupby_keys, merge_sort_Permutation, elem_of_unique.
  apply list_elem_of_omap.
Qed.

Lemma groupby_keys_sorted l : StronglySorted R (groupby R key l).*1.
Proof. rewrite groupby_keys. apply StronglySorted_merge_sort; apply _. Qed.

Lemma groupby_keys_NoDup l : NoDup (groupby R key l).*1.
Proof.
  rewrite groupby_keys, merge_sort_Permutation. apply NoDup_unique.
Qed.

Lemma elem_of_groupby l k g :
  (k, g) ∈ groupby R key l ↔
  (∃ a, a ∈ l ∧ key a = Some k) ∧ g = filter (λ a, key a = Some k) l.
Proof.
  rewrite <- elem_of_groupby_keys, groupby_keys. unfold groupby.
  rewrite list_elem_of_fmap. split.
  - intros (k' & [= -> ->] & Hk). done.
  - intros [Hk ->]. eauto.
Qed.

Lemma groupby_nonempty l k g : (k, g) ∈ groupby R key l → g ≠ [].
Proof.
  intros [(a & Ha & Hk) ->]%elem_of_groupby Hnil.
  assert (a ∈ filter (λ a, key a = Some k) l) as Hin
    by by apply list_elem_of_filter.
  rewrite Hnil in Hin. by apply elem_of_nil in Hin.
Qed.
End groupby.

(** ** The monthly downloads *)

Lemma elem_of_total_downloads_df df t v :
  (t, v) ∈ total_downloads_df df ↔
  t ∈ interval <$> df ∧ v = interval_total df t.
Proof.
  unfold total_downloads_df. rewrite list_elem_of_fmap. split.
  - intros ([k g] & [= -> ->] & [(r & Hr & [= <-]) ->]%elem_of_groupby).
    simpl. split; [apply list_elem_of_fmap; eauto|].
    unfold interval_total. f_equal. f_equal.
    apply list_filter_iff. intros x. split; congruence.
  - intros [(r & -> & Hr)%list_elem_of_fmap ->].
    exists (interval r, filter (λ a, Some (interval a) = Some (interval r)) df).
    split.
    + simpl. unfold interval_total. do 3 f_equal.
      apply list_filter_iff. intros x. split; congruence.
    + apply elem_of_groupby; [apply _..|]. eauto.
Qed.

Lemma total_downloads_df_keys df :
  (total_downloads_df df).*1
  = (groupby ts_le (λ r, Some (interval r)) df).*1.
Proof.
  unfold total_downloads_df. rewrite <- list_fmap_compose. done.
Qed.

Lemma total_downloads_df_sorted df :
  StronglySorted (λ x y, ts_le x.1 y.1) (total_downloads_df df).
Proof.
  apply StronglySorted_by_key. rewrite total_downloads_df_keys.
  apply groupby_keys_sorted; apply _.
Qed.

Lemma elem_of_monthly_downloads_of df m v :
  (m, v) ∈ monthly_downloads_of df ↔
  ∃ t, t ∈ interval <$> df ∧
       (∀ t', t' ∈ interval <$> df → to_period t' = to_period t → ts_le t' t) ∧
       m = period_str (to_period t) ∧
       v = interval_total df t.
Proof.
  unfold monthly_downloads_of. rewrite list_elem_of_omap. split.
  - intros ([p g] & Hg & Hlast). simpl in Hlast.
    destruct (last g) as [[t v']|] eqn:Hl; [|done].
    injection Hlast as <- <-.
    apply elem_of_groupby in Hg as [_ ->]; [|apply _..].
    pose proof (last_Some_elem_of _ _ Hl) as Hin.
    apply list_elem_of_filter in Hin as [Hp%(inj Some) Hin]. simpl in Hp.
    apply elem_of_total_downloads_df in Hin as [Ht Hv].
    exists t. split; [done|]. split; [|by rewrite Hp].
    intros t' Ht' Hp'.
    apply (StronglySorted_last (λ x y, ts_le x.1 y.1) _ (t, v')
             (t', interval_total df t')
             (StronglySorted_filter _ _ _ (total_downloads_df_sorted df)) Hl).
    apply list_elem_of_filter. split; [simpl; congruence|].
    by apply elem_of_total_downloads_df.
  - intros (t & Ht & Hmax & -> & ->).
    set (T := total_downloads_df df).
    set (g := filter (λ x : Timestamp * Z, Some (to_period x.1) = Some (to_period t)) T).
    assert ((t, interval_total df t) ∈ g) as Hin.
    { apply list_elem_of_filter. split; [done|].
      by apply elem_of_total_downloads_df. }
    exists (to_period t, g). split.
    { apply elem_of_groupby; [apply _..|]. split; [|done].
      exists (t, interval_total df t). split; [|done].
      by apply elem_of_total_downloads_df. }
    simpl. destruct (last g) as [[t2 v2]|] eqn:Hl.
    2:{ apply last_None in Hl. rewrite Hl in Hin. by apply elem_of_nil in Hin. }
    pose proof (last_Some_elem_of _ _ Hl) as Hin2.
    apply list_elem_of_filter in Hin2 as [Hp2%(inj Some) Hin2]. simpl in Hp2.
    apply elem_of_total_downloads_df in Hin2 as [Ht2 Hv2].
    assert (ts_le t t2) as H12.
    { apply (StronglySorted_last (λ x y, ts_le x.1 y.1) _ (t2, v2)
               (t, interval_total df t)
               (StronglySorted_filter _ _ _ (total_downloads_df_sorted df)) Hl Hin). }
    assert (t2 = t) as ->.
    { apply (anti_symm ts_le); [|done]. by apply Hmax. }
    simpl. by rewrite Hv2.
Qed.

Lemma scenario_all_months pubA pubB df :
  to_period pubA = mkPeriod 2023 1 →
  to_period pubB = mkPeriod 2023 2 →
  df ≡ₚ scenario pubA pubB →
  monthly_downloads_of df = [("2023-01", 100); ("2023-02", 300)] ∧
  all_months_of df
  = [ mkMonthRow "2023-01" (Num 100) (Num 1);
      mkMonthRow "2023-02" (Num 300) (Num 1) ].
Proof.
  destruct pubA as [yA mA dA nA], pubB as [yB mB dB nB].
  intros [= -> ->] [= -> ->] Hperm.
  symmetry in Hperm.
  apply permutations_Permutation in Hperm. vm_compute in Hperm.
  repeat (apply elem_of_cons in Hperm as [->|Hperm]);
    [split; vm_compute; reflexivity..|].
  by apply elem_of_nil in Hperm.
Qed.

(** C3: a month's download figure is the total, summed over all episodes,
    of the most recent interval recorded in that month; and in the scenario
    of section 8, whatever the order of the rows and the publication days,
    the table is 2023-01 with 100 downloads and one episode, 2023-02 with
    300 downloads and one episode. *)
Theorem monthly_downloads_last_interval_total :
  (∀ df m v,
     (m, v) ∈ monthly_downloads_of df ↔
     ∃ t, t ∈ interval <$> df ∧
          (∀ t', t' ∈ interval <$> df → to_period t' = to_period t →
                 ts_le t' t) ∧
          m = period_str (to_period t) ∧
          v = interval_total df t) ∧
  (∀ pubA pubB df,
     to_period pubA = mkPeriod 2023 1 →
     to_period pubB = mkPeriod 2023 2 →
     df ≡ₚ scenario pubA pubB →
     all_months_of df
     = [ mkMonthRow "2023-01" (Num 100) (Num 1);
         mkMonthRow "2023-02" (Num 300) (Num 1) ]).
Proof.
  split; [apply elem_of_monthly_downloads_of|].
  intros pubA pubB df HA HB Hperm.
  by destruct (scenario_all_months pubA pubB df HA HB Hperm).
Qed.

Lemma monthly_downloads_last_interval_total_witness :
  all_months_of scenario_df
  = [ mkMonthRow "2023-01" (Num 100) (Num 1);
      mkMonthRow "2023-02" (Num 300) (Num 1) ].
Proof.
  apply (proj2 monthly_downloads_last_interval_total
           (at_midnight 2023 1 1) (at_midnight 2023 2 1) scenario_df);
    reflexivity.
Defined.

(** ** Month keys *)

Lemma digit_inj a b :
  0 ≤ a ≤ 9 → 0 ≤ b ≤ 9 → digit a = digit b → a = b.
Proof.
  intros Ha Hb.
  assert (a = 0 ∨ a = 1 ∨ a = 2 ∨ a = 3 ∨ a = 4 ∨ a = 5 ∨ a = 6 ∨ a = 7
          ∨ a = 8 ∨ a = 9) as Ha' by lia.
  assert (b = 0 ∨ b = 1 ∨ b = 2 ∨ b = 3 ∨ b = 4 ∨ b = 5 ∨ b = 6 ∨ b = 7
          ∨ b = 8 ∨ b = 9) as Hb' by lia.
  clear Ha Hb.
  repeat (destruct Ha' as [->|Ha']); try subst a;
    repeat (destruct Hb' as [->|Hb']); try subst b; done.
Qed.

Lemma period_str_inj p q :
  valid_period p → valid_period q → period_str p = period_str q → p = q.
Proof.
  destruct p as [y m], q as [y' m']. unfold valid_period, period_str. simpl.
  intros [Hy Hm] [Hy' Hm'] Heq.
  injection Heq as H1 H2 H3 H4 H5 H6.
  apply digit_inj in H1; [|Z.div_mod_to_equations; lia..].
  apply digit_inj in H2; [|Z.div_mod_to_equations; lia..].
  apply digit_inj in H3; [|Z.div_mod_to_equations; lia..].
  apply digit_inj in H4; [|Z.div_mod_to_equations; lia..].
  apply digit_inj in H5; [|Z.div_mod_to_equations; lia..].
  apply digit_inj in H6; [|Z.div_mod_to_equations; lia..].
  f_equal; Z.div_mod_to_equations; lia.
Qed.

Lemma valid_ts_period t : valid_ts t → valid_period (to_period t).
Proof. done. Qed.

(** ** Series with distinct keys *)

Section keyed.
Context {V : Type}.
Implicit Types s : list (string * V).

Lemma filter_key_absent s k : k ∉ s.*1 → filter (λ x, x.1 = k) s = [].
Proof.
  induction s as [|[k' v] s IH]; [done|].
  rewrite fmap_cons, not_elem_of_cons. simpl. intros [Hne Hnot].
  rewrite filter_cons, decide_False by (simpl; congruence). auto.
Qed.

Lemma filter_key_present s k v :
  NoDup s.*1 → (k, v) ∈ s → filter (λ x, x.1 = k) s = [(k, v)].
Proof.
  induction s as [|[k' v'] s IH]; [by intros _ ?%elem_of_nil|].
  rewrite fmap_cons, NoDup_cons. simpl. intros [Hk' Hnd].
  rewrite elem_of_cons, filter_cons. simpl. intros [[= <- <-]|Hin].
  - rewrite decide_True by done. by rewrite filter_key_absent.
  - rewrite decide_False; [by apply IH|].
    intros ->. apply Hk', list_elem_of_fmap. by exists (k, v).
Qed.

Lemma filter_key_cases s k :
  NoDup s.*1 →
  ((k ∉ s.*1) ∧ filter (λ x, x.1 = k) s = []) ∨
  (∃ v, (k, v) ∈ s ∧ filter (λ x, x.1 = k) s = [(k, v)]).
Proof.
  intros Hnd. destruct (decide (k ∈ s.*1)) as [Hin|Hnot].
  - right. apply list_elem_of_fmap in Hin as ([k' v] & -> & Hin).
    exists v. split; [done|]. by apply filter_key_present.
  - left. split; [done|]. by apply filter_key_absent.
Qed.
End keyed.

Lemma bind_singleton {A B : Type} (f : A → list B) (g : A → B) (l : list A) :
  (∀ x, x ∈ l → f x = [g x]) → l ≫= f = g <$> l.
Proof.
  induction l as [|a l IH]; intros Hf; [done|].
  rewrite bind_cons, fmap_cons, (Hf a) by (by left).
  simpl. f_equal. apply IH. intros x Hx. apply Hf. by right.
Qed.

Lemma merge_outer_distinct_keys left right :
  NoDup left.*1 → NoDup right.*1 →
  merge_outer left right
  = (λ k, mkMonthRow k (merged_cell k left) (merged_cell k right))
      <$> merge_sort String.le (unique (left.*1 ++ right.*1)).
Proof.
  intros Hl Hr. unfold merge_outer. apply bind_singleton. intros k Hk.
  rewrite merge_sort_Permutation, elem_of_unique, elem_of_app in Hk.
  unfold merged_cell.
  destruct (filter_key_cases left k Hl) as [[Hnl ->]|(v & Hv & ->)];
    destruct (filter_key_cases right k Hr) as [[Hnr ->]|(w & Hw & ->)];
    try done.
  destruct Hk; done.
Qed.

Lemma merge_outer_months left right :
  NoDup left.*1 → NoDup right.*1 →
  month <$> merge_outer left right
  = merge_sort String.le (unique (left.*1 ++ right.*1)).
Proof.
  intros Hl Hr. rewrite merge_outer_distinct_keys by done.
  rewrite <- list_fmap_compose. apply list_fmap_id.
Qed.

Lemma fillna_zero_months t : month <$> fillna_zero t = month <$> t.
Proof. unfold fillna_zero. by rewrite <- list_fmap_compose. Qed.

Lemma sort_values_month_Permutation t : sort_values_month t ≡ₚ t.
Proof. apply merge_sort_Permutation. Qed.

Lemma sort_values_month_sorted t :
  StronglySorted String.le (month <$> sort_values_month t).
Proof.
  apply (StronglySorted_fmap month (λ r1 r2, String.le (month r1) (month r2)));
    [done|].
  apply StronglySorted_merge_sort; apply _.
Qed.

(** ** The keys of the two monthly series *)

Lemma omap_last_keys {K B C : Type} (h : K → string) (c : B → C)
    (G : list (K * list B)) :
  (∀ k g, (k, g) ∈ G → g ≠ []) →
  (omap (λ g, (λ t, (h g.1, c t)) <$> last g.2) G).*1 = h <$> G.*1.
Proof.
  induction G as [|[k g] G IH]; intros Hne; [done|].
  assert (g ≠ []) as Hg by (apply (Hne k); by left).
  destruct (last g) as [t|] eqn:Hl; [|by apply last_None in Hl].
  simpl. rewrite Hl. simpl. f_equal. apply IH.
  intros k' g' Hin. apply (Hne k'). by right.
Qed.

Lemma monthly_downloads_of_keys df :
  (monthly_downloads_of df).*1
  = period_str <$> (groupby period_le (λ t : Timestamp * Z, Some (to_period t.1))
                      (total_downloads_df df)).*1.
Proof.
  unfold monthly_downloads_of.
  apply (omap_last_keys period_str snd).
  intros k g. apply groupby_nonempty; apply _.
Qed.

Lemma episodes_per_month_keys df :
  (episodes_per_month df).*1
  = period_str <$> (groupby period_le publish_month (unique_episodes_df df)).*1.
Proof.
  unfold episodes_per_month. by rewrite <- !list_fmap_compose.
Qed.

Lemma NoDup_period_str (ps : list Period) :
  Forall valid_period ps → NoDup ps → NoDup (period_str <$> ps).
Proof.
  intros Hv Hnd. apply NoDup_fmap_2_strong; [|done].
  intros p q Hp Hq. apply period_str_inj.
  - by apply (proj1 (Forall_forall _ _) Hv).
  - by apply (proj1 (Forall_forall _ _) Hv).
Qed.

Lemma monthly_downloads_of_NoDup df :
  valid_table df → NoDup (monthly_downloads_of df).*1.
Proof.
  intros Hv. rewrite monthly_downloads_of_keys. apply NoDup_period_str.
  - apply Forall_forall. intros p Hp.
    apply elem_of_groupby_keys in Hp as ([t v] & Hin & [= <-]); [|apply _..].
    apply elem_of_total_downloads_df in Hin as [Ht _].
    apply list_elem_of_fmap in Ht as (r & -> & Hr).
    apply valid_ts_period.
    by destruct (proj1 (Forall_forall _ _) Hv r Hr).
  - apply groupby_keys_NoDup; apply _.
Qed.

Lemma episodes_per_month_NoDup df :
  valid_table df → NoDup (episodes_per_month (assign_publish_month df)).*1.
Proof.
  intros Hv. rewrite episodes_per_month_keys. apply NoDup_period_str.
  - apply Forall_forall. intros p Hp.
    apply elem_of_groupby_keys in Hp as (r & Hin & Hp); [|apply _..].
    apply drop_duplicates_elem_of in Hin.
    apply list_elem_of_fmap in Hin as (r0 & -> & Hr0).
    simpl in Hp. injection Hp as <-. apply valid_ts_period.
    by destruct (proj1 (Forall_forall _ _) Hv r0 Hr0).
  - apply groupby_keys_NoDup; apply _.
Qed.

Lemma all_months_of_months df :
  valid_table df →
  month <$> all_months_of df
  ≡ₚ unique ((monthly_downloads_of df).*1
             ++ (episodes_per_month (assign_publish_month df)).*1).
Proof.
  intros Hv. unfold all_months_of.
  rewrite sort_values_month_Permutation, fillna_zero_months.
  rewrite merge_outer_months
    by auto using monthly_downloads_of_NoDup, episodes_per_month_NoDup.
  apply merge_sort_Permutation.
Qed.

(** C4: for a table of representable timestamps, the merged monthly table
    has a row for a month exactly when the month occurs in the downloads
    series or in the episode-count series; no month occurs twice; the rows
    are in strictly ascending order of the month key; and each row carries
    the value of either series for its month, or zero where the series has
    no such month. *)
Theorem all_months_one_row_per_month df :
  valid_table df →
  let md := monthly_downloads_of df in
  let ep := episodes_per_month (assign_publish_month df) in
  let am := all_months_of df in
  (∀ m, m ∈ md.*1 ∨ m ∈ ep.*1 ↔ m ∈ month <$> am) ∧
  NoDup (month <$> am) ∧
  StronglySorted (strict String.le) (month <$> am) ∧
  ∀ r, r ∈ am →
    (∀ v, (month r, v) ∈ md → mr_downloads_total r = Num v) ∧
    (month r ∉ md.*1 → mr_downloads_total r = Num 0) ∧
    (∀ n, (month r, n) ∈ ep → mr_episode_count r = Num n) ∧
    (month r ∉ ep.*1 → mr_episode_count r = Num 0).
Proof.
  intros Hv md ep am.
  pose proof (monthly_downloads_of_NoDup df Hv) as Hmd.
  pose proof (episodes_per_month_NoDup df Hv) as Hep.
  pose proof (all_months_of_months df Hv) as Hmonths.
  fold md ep am in Hmd, Hep, Hmonths.
  assert (NoDup (month <$> am)) as Hnd.
  { rewrite Hmonths. apply NoDup_unique. }
  split.
  { intros m. by rewrite Hmonths, elem_of_unique, elem_of_app. }
  split; [done|]. split.
  { apply StronglySorted_strict; [apply _| |done].
    apply sort_values_month_sorted. }
  intros r Hr. unfold am, all_months_of in Hr.
  rewrite sort_values_month_Permutation in Hr.
  fold md ep in Hr. rewrite merge_outer_distinct_keys in Hr by done.
  unfold fillna_zero in Hr. rewrite <- list_fmap_compose in Hr.
  apply list_elem_of_fmap in Hr as (k & -> & _). simpl.
  unfold merged_cell. repeat split.
  - intros v Hin. by rewrite (filter_key_present md k v Hmd Hin).
  - intros Hnot. by rewrite (filter_key_absent md k Hnot).
  - intros n Hin. by rewrite (filter_key_present ep k n Hep Hin).
  - intros Hnot. by rewrite (filter_key_absent ep k Hnot).
Qed.

Lemma all_months_one_row_per_month_witness :
  NoDup (month <$> all_months_of scenario_df).
Proof.
  destruct (all_months_one_row_per_month scenario_df) as (_ & Hnd & _).
  - repeat constructor; simpl; lia.
  - exact Hnd.
Defined.

(** * Further properties of the callbacks and of the layout *)

(** X1: the options of the dropdown are the titles of the table, each
    once, with the label equal to the value; and no option makes the
    episode callback run out of bounds. *)
Theorem dropdown_options_are_the_titles df dd :
  episode_dropdown df = Ok dd →
  NoDup (dd_options dd).*2 ∧
  (∀ o, o ∈ dd_options dd → o.1 = o.2) ∧
  (∀ t, t ∈ (dd_options dd).*2 ↔ t ∈ episode_title <$> df) ∧
  (∀ g h t, h !! g_df g = Some (ODataFrame df) → t ∈ (dd_options dd).*2 →
            (update_graph g t h).1 ≠ Raise IndexError).
Proof.
  unfold episode_dropdown.
  destruct (iloc (episode_title <$> df) 0) as [v|e]; [|done].
  intros [= <-]. cbn [dd_options dd_value].
  assert (((λ t : string, (t, t)) <$> unique (episode_title <$> df)).*2
          = unique (episode_title <$> df)) as ->.
  { rewrite <- list_fmap_compose. apply list_fmap_id. }
  split; [apply NoDup_unique|].
  split; [by intros o (t & -> & _)%list_elem_of_fmap|].
  split; [intros t; exact (elem_of_unique _ t)|].
  intros g h t Hdf Ht. apply (proj1 (elem_of_unique _ _)) in Ht.
  rewrite (update_graph_run g h df t Hdf). simpl.
  by apply graph_result_in_bounds.
Qed.

Lemma dropdown_options_are_the_titles_witness :
  NoDup (dd_options (mkDropdown [("A", "A"); ("B", "B")] "A")).*2.
Proof.
  destruct (dropdown_options_are_the_titles scenario_df
              (mkDropdown [("A", "A"); ("B", "B")] "A")) as [Hnd _].
  - reflexivity.
  - exact Hnd.
Defined.

(** X2: building the dropdown fails, with IndexError, exactly on the
    empty table: a source file without rows stops the program at start-up. *)
Theorem episode_dropdown_empty_table df :
  episode_dropdown df = Raise IndexError ↔ df = [].
Proof.
  unfold episode_dropdown. rewrite iloc_first.
  destruct df as [|r df]; simpl; split; done.
Qed.

Lemma zip_fmap_fmap {A B C : Type} (f : A → B) (g : A → C) (l : list A) :
  zip (f <$> l) (g <$> l) = (λ a, (f a, g a)) <$> l.
Proof. induction l as [|a l IH]; [done|]. simpl. by f_equal. Qed.

Lemma graph_result_Ok df sel fig total latest :
  graph_result df sel = Ok (fig, total, latest) →
  ∃ published latest_int,
    iloc (published_at <$> episode_series df sel) 0 = Ok published ∧
    iloc (monthly_delta_series (episode_series df sel)) (-1)
      = Ok (Num latest_int) ∧
    fig = graph_figure sel (episode_series df sel) published
            (sum_skipna (monthly_delta_series (episode_series df sel))) ∧
    total = format_thousands
              (sum_skipna (monthly_delta_series (episode_series df sel))) ∧
    latest = format_thousands latest_int.
Proof.
  unfold graph_result.
  destruct (iloc (published_at <$> episode_series df sel) 0) as [p|]; [|done].
  destruct (iloc (monthly_delta_series (episode_series df sel)) (-1))
    as [[z|]|]; [|done..].
  simpl. intros [= <- <- <-]. eauto 10.
Qed.

(** X3: when the episode callback returns a figure, its single line trace
    plots exactly the (interval, cumulative downloads) pairs of the rows
    with the selected title, in ascending order of the interval. *)
Theorem update_graph_plots_selected_rows g h df sel fig total latest :
  h !! g_df g = Some (ODataFrame df) →
  (update_graph g sel h).1 = Ok (fig, total, latest) →
  ∃ sc, lf_data fig = [sc] ∧
    length (sc_x sc) = length (sc_y sc) ∧
    zip (sc_x sc) (sc_y sc)
      ≡ₚ (λ r, (interval r, downloads_total r))
           <$> filter (λ r, episode_title r = sel) df ∧
    StronglySorted ts_le (sc_x sc).
Proof.
  intros Hdf. rewrite (update_graph_run g h df sel Hdf). simpl.
  intros (p & z & _ & _ & -> & _ & _)%graph_result_Ok.
  eexists. split; [reflexivity|]. simpl.
  split; [by rewrite !length_fmap|]. split.
  - rewrite zip_fmap_fmap. by rewrite episode_series_Permutation.
  - apply (StronglySorted_fmap interval
             (λ r1 r2, ts_le (interval r1) (interval r2))); [done|].
    apply sort_values_interval_sorted.
Qed.

Lemma update_graph_plots_selected_rows_witness :
  ∃ sc : Scatter,
    sc_x sc = [at_midnight 2023 1 1; at_midnight 2023 2 1] ∧
    sc_y sc = [Num 100; Num 250].
Proof.
  destruct (update_graph_plots_selected_rows (load scenario_df).1
              (load scenario_df).2 (assign_publish_month scenario_df) "A"
              (graph_figure "A" (episode_series (assign_publish_month scenario_df) "A")
                 (at_midnight 2023 1 1) 250)
              (format_thousands 250) (format_thousands 150))
    as (sc & Hsc & _).
  - reflexivity.
  - by vm_compute.
  - exists sc. vm_compute in Hsc. injection Hsc as <-. by split.
Defined.

(** X4: an episode with at least two recorded intervals, pairwise
    distinct, and integer values, twice the sum of their magnitudes being
    at most 2^53, [a] and [b] being the last two in interval order: the
    callback reports [b] as the total and [b - a] as the latest figure.
    Each of the two texts is, without its separators, the decimal notation
    of that number, which is of a magnitude on which float64 is exact. *)
Theorem update_graph_latest_is_last_difference g h df sel zs a b :
  h !! g_df g = Some (ODataFrame df) →
  well_recorded df sel →
  downloads_total <$> episode_series df sel = Num <$> (zs ++ [a; b]) →
  ∃ fig total latest,
    (update_graph g sel h).1 = Ok (fig, total, latest) ∧
    total = format_thousands b ∧ strip_commas total = pretty b ∧
    latest = format_thousands (b - a) ∧
    strip_commas latest = pretty (b - a) ∧
    float_exact b ∧ float_exact (b - a).
Proof.
  intros Hdf Hwr Hzs.
  destruct (well_recorded_exact df sel Hwr) as (Hsum_exact & Hdeltas_exact & _).
  revert Hsum_exact Hdeltas_exact.
  rewrite (update_graph_run g h df sel Hdf). simpl.
  unfold graph_result.
  assert (length (episode_series df sel) = length (zs ++ [a; b])) as Hlen.
  { apply (f_equal length) in Hzs. by rewrite !length_fmap in Hzs. }
  rewrite length_app in Hlen. simpl in Hlen.
  destruct (episode_series df sel) as [|r s'] eqn:Hs; [simpl in Hlen; lia|].
  rewrite iloc_first. simpl head. cbv iota.
  rewrite iloc_last, last_lookup, length_monthly_delta_series, Hlen.
  replace (Init.Nat.pred (length zs + 2)) with (S (length zs)) by lia.
  rewrite (monthly_delta_series_numeric _ _ Hzs).
  assert (fillna_series (diff (Num <$> zs ++ [a; b])) (Num <$> zs ++ [a; b])
            !! S (length zs) = Some (Num (b - a))) as Hlast.
  { apply (fillna_diff_lookup_S _ (length zs) a b).
    - rewrite list_lookup_fmap, lookup_app_r by lia.
      by rewrite Nat.sub_diag.
    - rewrite list_lookup_fmap, lookup_app_r by lia.
      by replace (S (length zs) - length zs)%nat with 1%nat by lia. }
  rewrite Hlast. simpl. rewrite sum_fillna_diff.
  rewrite (last_app_cons zs [b] a), last_cons_cons. simpl.
  intros Hsum_exact Hdeltas_exact.
  eexists _, _, _. split; [done|].
  rewrite !strip_commas_format_thousands.
  repeat (split; [done|]).
  apply Hdeltas_exact. by apply list_elem_of_lookup_2 in Hlast.
Qed.

Lemma update_graph_latest_is_last_difference_witness :
  ∃ fig, (update_graph (load scenario_df).1 "A" (load scenario_df).2).1
         = Ok (fig, "250", "150").
Proof.
  destruct (update_graph_latest_is_last_difference (load scenario_df).1
              (load scenario_df).2 (assign_publish_month scenario_df) "A"
              [] 100 250)
    as (fig & total & latest & Hrun & -> & _ & -> & _).
  - reflexivity.
  - split; [apply (bool_decide_unpack _); by vm_compute|].
    unfold float_exact_column. by vm_compute.
  - by vm_compute.
  - exists fig. exact Hrun.
Defined.

Lemma fillna_diff_from_isna p xs i c :
  fillna_series (diff_from p xs) xs !! i = Some c →
  ∃ x, xs !! i = Some x ∧ isna c = isna x.
Proof.
  revert p i. induction xs as [|x xs IH]; intros p i; [done|].
  destruct i as [|i]; simpl.
  - intros [= <-]. exists x. split; [done|]. apply fillna_cell_sub_isna.
  - apply IH.
Qed.

(** X5: a delta is missing exactly where the cumulative value is missing;
    and right after a missing value the delta of a present value is that
    cumulative value itself, not a difference. *)
Theorem monthly_delta_series_gaps d :
  (∀ i c, monthly_delta_series d !! i = Some c →
          ∃ x, (downloads_total <$> d) !! i = Some x ∧ isna c = isna x) ∧
  (∀ i b, (downloads_total <$> d) !! i = Some NaN →
          (downloads_total <$> d) !! S i = Some (Num b) →
          monthly_delta_series d !! S i = Some (Num b)).
Proof.
  unfold monthly_delta_series. split.
  - intros i c. destruct (downloads_total <$> d) as [|x xs]; [done|].
    destruct i as [|i]; simpl.
    + intros [= <-]. exists x. by destruct x.
    + apply fillna_diff_from_isna.
  - intros i b Ha Hb. unfold fillna_series. rewrite lookup_zip_with.
    by rewrite (diff_lookup_S _ i NaN (Num b) Ha Hb), Hb.
Qed.

Lemma monthly_delta_series_gaps_witness :
  monthly_delta_series
    [ mkRow "A" (at_midnight 2023 1 1) (at_midnight 2023 1 1) (Num 100) None None;
      mkRow "A" (at_midnight 2023 1 1) (at_midnight 2023 2 1) NaN None None;
      mkRow "A" (at_midnight 2023 1 1) (at_midnight 2023 3 1) (Num 300) None None ]
    !! 2%nat = Some (Num 300).
Proof.
  apply (proj2 (monthly_delta_series_gaps _) 1%nat 300); reflexivity.
Defined.

(** * Further properties of the start-up aggregation *)

(** ** Groups partition the rows *)

Lemma filter_none {A : Type} (P : A → Prop) `{∀ x, Decision (P x)} (l : list A) :
  (∀ a, a ∈ l → ¬ P a) → filter P l = [].
Proof.
  induction l as [|a l IH]; intros Hno; [done|].
  rewrite filter_cons, decide_False by (apply Hno; by left).
  apply IH. intros b Hb. apply Hno. by right.
Qed.

Lemma filter_all {A : Type} (P : A → Prop) `{∀ x, Decision (P x)} (l : list A) :
  (∀ a, a ∈ l → P a) → filter P l = l.
Proof.
  induction l as [|a l IH]; intros Hall; [done|].
  rewrite filter_cons, decide_True by (apply Hall; by left).
  f_equal. apply IH. intros b Hb. apply Hall. by right.
Qed.

Lemma filter_fmap {A B : Type} (f : A → B) (P : B → Prop)
    `{∀ x, Decision (P x)} (l : list A) :
  filter P (f <$> l) = f <$> filter (λ a, P (f a)) l.
Proof.
  induction l as [|a l IH]; [done|].
  rewrite fmap_cons, !filter_cons. case_decide; simpl; by rewrite IH.
Qed.

Section partition.
Context {A K : Type} `{EqDecision K} (key : A → option K).

Lemma partition_by_keys (ks : list K) (l : list A) :
  NoDup ks →
  (∀ a k, a ∈ l → key a = Some k → k ∈ ks) →
  concat ((λ k, filter (λ a, key a = Some k) l) <$> ks)
  ≡ₚ filter (λ a, is_Some (key a)) l.
Proof.
  intros Hnd. revert l. induction Hnd as [|k ks Hk Hnd IH]; intros l Hks.
  - simpl. rewrite filter_none; [done|].
    intros a Ha [k Hk]. by apply (elem_of_nil k), (Hks a).
  - rewrite fmap_cons. simpl.
    set (l' := filter (λ a, key a ≠ Some k) l).
    assert ((λ k', filter (λ a, key a = Some k') l) <$> ks
            = (λ k', filter (λ a, key a = Some k') l') <$> ks) as ->.
    { apply list_fmap_ext. intros i k' Hk'. unfold l'.
      rewrite list_filter_filter_l; [done|].
      intros a -> [= ->]. apply Hk. by eapply list_elem_of_lookup_2. }
    rewrite (IH l').
    2:{ intros a k' [Hne Ha]%list_elem_of_filter Hk'.
        pose proof (Hks a k' Ha Hk') as Hin.
        apply elem_of_cons in Hin as [->|Hin]; [congruence|done]. }
    rewrite <- (filter_app_complement (λ a, key a = Some k)
                  (filter (λ a, is_Some (key a)) l)).
    f_equiv.
    + rewrite list_filter_filter_l; [done|]. intros a ->. by eexists.
    + unfold l'. rewrite !list_filter_filter.
      apply reflexive_eq, list_filter_iff. intros a. tauto.
Qed.
End partition.

Lemma groupby_Permutation {A K : Type} `{EqDecision K} (R : relation K)
    `{!RelDecision R} (key : A → option K) (l : list A) :
  concat (groupby R key l).*2 ≡ₚ filter (λ a, is_Some (key a)) l.
Proof.
  unfold groupby. rewrite <- list_fmap_compose.
  apply (partition_by_keys key).
  - rewrite merge_sort_Permutation. apply NoDup_unique.
  - intros a k Ha Hk. rewrite merge_sort_Permutation, elem_of_unique.
    apply list_elem_of_omap. eauto.
Qed.

(** ** Sums *)


Global Instance sum_skipna_Permutation : Proper ((≡ₚ) ==> (=)) sum_skipna.
Proof.
  induction 1 as [|[z|] l1 l2 _ IH|[x|] [y|] l| l1 l2 l3 _ IH1 _ IH2];
    simpl; lia.
Qed.


Lemma sum_group_sizes {A : Type} (gs : list (list A)) :
  foldr Z.add 0 ((λ g, Z.of_nat (length g)) <$> gs)
  = Z.of_nat (length (concat gs)).
Proof.
  induction gs as [|g gs IH]; [done|].
  rewrite fmap_cons. cbn [foldr concat].
  rewrite length_app, IH. lia.
Qed.


(** ** First rows *)

Section first_rows.
Context {A K : Type} `{EqDecision K} (key : A → K).
Implicit Types l : list A.

Lemma fmap_drop_duplicates l :
  key <$> drop_duplicates key l = unique (key <$> l).
Proof.
  induction l as [|a l IH]; [done|].
  unfold unique in *. rewrite fmap_cons. cbn [drop_duplicates]. rewrite fmap_cons.
  f_equal. rewrite <- IH. by rewrite filter_fmap.
Qed.

Lemma drop_duplicates_fmap {B : Type} (f : B → A) (keyB : B → K) (l : list B) :
  (∀ b, key (f b) = keyB b) →
  drop_duplicates key (f <$> l) = f <$> drop_duplicates keyB l.
Proof.
  intros Hkey. induction l as [|b l IH]; [done|].
  rewrite fmap_cons. cbn [drop_duplicates]. rewrite fmap_cons.
  f_equal. rewrite IH, filter_fmap.
  f_equal. apply list_filter_iff. intros x. by rewrite !Hkey.
Qed.

(** the rows kept are the rows no earlier row shares its key with *)
Lemma elem_of_drop_duplicates l a :
  a ∈ drop_duplicates key l ↔
  ∃ i, l !! i = Some a ∧
       ∀ j b, (j < i)%nat → l !! j = Some b → key b ≠ key a.
Proof.
  induction l as [|c l IH]; simpl.
  { split; [by intros ?%elem_of_nil|by intros (i & ? & _)]. }
  rewrite elem_of_cons, list_elem_of_filter, IH. split.
  - intros [->|[Hne (i & Hi & Hfirst)]].
    + exists 0%nat. split; [done|]. intros j b Hj. lia.
    + exists (S i). split; [done|]. intros [|j] b Hj Hb; simpl in Hb.
      * by injection Hb as <-.
      * apply (Hfirst j); [lia|done].
  - intros ([|i] & Hi & Hfirst); simpl in Hi.
    + left. by injection Hi.
    + right. split.
      * apply not_eq_sym. apply (Hfirst 0%nat c); [lia|done].
      * exists i. split; [done|]. intros j b Hj Hb.
        apply (Hfirst (S j)); [lia|done].
Qed.
End first_rows.

Lemma assign_publish_month_titles df :
  episode_title <$> assign_publish_month df = episode_title <$> df.
Proof. unfold assign_publish_month. by rewrite <- list_fmap_compose. Qed.

Lemma unique_episodes_df_assign df :
  unique_episodes_df (assign_publish_month df)
  = assign_publish_month (unique_episodes_df df).
Proof.
  unfold unique_episodes_df, assign_publish_month.
  by apply drop_duplicates_fmap.
Qed.

(** X8: the table of unique episodes holds, for every title, the first row
    of the source table with that title and no other row; its titles are
    the distinct titles of the table in order of first appearance. *)
Theorem unique_episodes_df_first_rows df :
  (∀ r, r ∈ unique_episodes_df df ↔
        ∃ i, df !! i = Some r ∧
             ∀ j r', (j < i)%nat → df !! j = Some r' →
                     episode_title r' ≠ episode_title r) ∧
  NoDup (episode_title <$> unique_episodes_df df) ∧
  episode_title <$> unique_episodes_df df = unique (episode_title <$> df).
Proof.
  split; [intros r; apply elem_of_drop_duplicates|].
  split; [apply drop_duplicates_NoDup|apply fmap_drop_duplicates].
Qed.

Lemma episodes_per_month_counts df :
  (episodes_per_month (assign_publish_month df)).*2
  = (λ g, Z.of_nat (length g))
      <$> (groupby period_le publish_month
             (unique_episodes_df (assign_publish_month df))).*2.
Proof. unfold episodes_per_month. by rewrite <- !list_fmap_compose. Qed.

(** X7: every episode is counted once, in the month in which the first row
    of its title was published: the count of a month is the number of
    first rows published in it and is at least one, and the counts of all
    months add up to the number of distinct titles. *)
Theorem episodes_per_month_counts_each_title_once df :
  (∀ m n, (m, n) ∈ episodes_per_month (assign_publish_month df) ↔
     ∃ p, m = period_str p ∧ 1 ≤ n ∧
          n = Z.of_nat (length (filter (λ r, to_period (published_at r) = p)
                                  (unique_episodes_df df)))) ∧
  foldr Z.add 0 (episodes_per_month (assign_publish_month df)).*2
  = Z.of_nat (length (unique (episode_title <$> df))).
Proof.
  split.
  - intros m n. unfold episodes_per_month. rewrite list_elem_of_fmap.
    rewrite unique_episodes_df_assign.
    assert (∀ p, filter (λ r, publish_month r = Some p)
                   (assign_publish_month (unique_episodes_df df))
                 = assign_publish_month
                     (filter (λ r, to_period (published_at r) = p)
                        (unique_episodes_df df))) as Hgroup.
    { intros p. unfold assign_publish_month. rewrite filter_fmap.
      f_equal. apply list_filter_iff. intros r. simpl. split; congruence. }
    split.
    + intros ([p g] & [= -> ->] & Hin).
      pose proof (groupby_nonempty _ _ _ _ _ Hin) as Hne.
      apply elem_of_groupby in Hin as [_ ->]; [|apply _..].
      exists p. split; [done|]. simpl in *. rewrite Hgroup in *.
      unfold assign_publish_month in *. rewrite length_fmap in *.
      split; [|done].
      destruct (filter _ (unique_episodes_df df)); [done|simpl; lia].
    + intros (p & -> & Hn & ->).
      exists (p, filter (λ r, publish_month r = Some p)
                   (assign_publish_month (unique_episodes_df df))).
      split.
      * simpl. rewrite Hgroup. unfold assign_publish_month.
        by rewrite length_fmap.
      * apply elem_of_groupby; [apply _..|]. split; [|done].
        destruct (filter (λ r, to_period (published_at r) = p)
                    (unique_episodes_df df)) as [|r s] eqn:Hf;
          [simpl in Hn; lia|].
        assert (r ∈ filter (λ r, to_period (published_at r) = p)
                      (unique_episodes_df df)) as Hr by (rewrite Hf; by left).
        apply list_elem_of_filter in Hr as [Hp Hr].
        eexists. split; [apply list_elem_of_fmap; eauto|].
        simpl. by rewrite Hp.
  - rewrite episodes_per_month_counts, sum_group_sizes, groupby_Permutation.
    rewrite filter_all.
    + unfold unique_episodes_df.
      rewrite <- (length_fmap episode_title
                    (drop_duplicates episode_title (assign_publish_month df))).
      by rewrite fmap_drop_duplicates, assign_publish_month_titles.
    + intros r Hr%drop_duplicates_elem_of.
      apply list_elem_of_fmap in Hr as (r0 & -> & _). by eexists.
Qed.

(** ** The order of the rows *)














(** ** Month keys are in calendar order *)

Lemma digit_compare a b :
  0 ≤ a ≤ 9 → 0 ≤ b ≤ 9 → Ascii.compare (digit a) (digit b) = (a ?= b).
Proof.
  intros Ha Hb.
  assert (a = 0 ∨ a = 1 ∨ a = 2 ∨ a = 3 ∨ a = 4 ∨ a = 5 ∨ a = 6 ∨ a = 7
          ∨ a = 8 ∨ a = 9) as Ha' by lia.
  assert (b = 0 ∨ b = 1 ∨ b = 2 ∨ b = 3 ∨ b = 4 ∨ b = 5 ∨ b = 6 ∨ b = 7
          ∨ b = 8 ∨ b = 9) as Hb' by lia.
  clear Ha Hb.
  repeat (destruct Ha' as [->|Ha']); try subst a;
    repeat (destruct Hb' as [->|Hb']); try subst b; reflexivity.
Qed.

Lemma period_str_le p q :
  valid_period p → valid_period q →
  String.le (period_str p) (period_str q) ↔ period_le p q.
Proof.
  destruct p as [y m], q as [y' m']. unfold valid_period, period_le. simpl.
  intros [Hy Hm] [Hy' Hm'].
  unfold String.le, String.leb, period_str, fmt4, fmt2. simpl.
  rewrite !digit_compare by (Z.div_mod_to_equations; lia).
  destruct (Z.compare_spec (y / 1000) (y' / 1000));
    [|simpl; split; [intros _|done]; Z.div_mod_to_equations; lia
     |simpl; split; [done|]; Z.div_mod_to_equations; lia].
  destruct (Z.compare_spec (y / 100 mod 10) (y' / 100 mod 10));
    [|simpl; split; [intros _|done]; Z.div_mod_to_equations; lia
     |simpl; split; [done|]; Z.div_mod_to_equations; lia].
  destruct (Z.compare_spec (y / 10 mod 10) (y' / 10 mod 10));
    [|simpl; split; [intros _|done]; Z.div_mod_to_equations; lia
     |simpl; split; [done|]; Z.div_mod_to_equations; lia].
  destruct (Z.compare_spec (y mod 10) (y' mod 10));
    [|simpl; split; [intros _|done]; Z.div_mod_to_equations; lia
     |simpl; split; [done|]; Z.div_mod_to_equations; lia].
  destruct (Z.compare_spec (m / 10) (m' / 10));
    [|simpl; split; [intros _|done]; Z.div_mod_to_equations; lia
     |simpl; split; [done|]; Z.div_mod_to_equations; lia].
  destruct (Z.compare_spec (m mod 10) (m' mod 10));
    simpl; (split; [intros _|done]) || (split; [done|]);
    Z.div_mod_to_equations; lia.
Qed.

Lemma period_str_strict p q :
  valid_period p → valid_period q →
  strict String.le (period_str p) (period_str q) → strict period_le p q.
Proof.
  intros Hp Hq [Hle Hnle]. split.
  - by apply period_str_le.
  - intros Hqp. apply Hnle. by apply period_str_le.
Qed.

Lemma month_keys_periods (P : Period → Prop) (ms : list string) :
  (∀ m, m ∈ ms → ∃ p, valid_period p ∧ P p ∧ m = period_str p) →
  ∃ ps, ms = period_str <$> ps ∧ Forall (λ p, valid_period p ∧ P p) ps.
Proof.
  induction ms as [|m ms IH]; intros Hms.
  - by exists [].
  - destruct (Hms m) as (p & Hv & Hp & ->); [by left|].
    destruct IH as (ps & -> & Hps).
    { intros m' Hm'. apply Hms. by right. }
    exists (p :: ps). split; [done|]. by constructor.
Qed.

Lemma strictly_sorted_periods ps :
  Forall valid_period ps →
  StronglySorted (strict String.le) (period_str <$> ps) →
  StronglySorted (strict period_le) ps.
Proof.
  induction 1 as [|p ps Hp Hps IH]; [constructor|].
  rewrite fmap_cons. intros [Hall Hs]%StronglySorted_cons.
  constructor; [by apply IH|].
  apply Forall_forall. intros q Hq. apply period_str_strict; [done|..].
  - by apply (proj1 (Forall_forall _ _) Hps).
  - apply (proj1 (Forall_forall _ _) Hall), list_elem_of_fmap. eauto.
Qed.

Lemma monthly_downloads_of_months df m :
  m ∈ (monthly_downloads_of df).*1 ↔
  ∃ r, r ∈ df ∧ m = period_str (to_period (interval r)).
Proof.
  rewrite monthly_downloads_of_keys, list_elem_of_fmap.
  setoid_rewrite elem_of_groupby_keys; [|apply _..]. split.
  - intros (p & -> & [t v] & Hin & [= <-]).
    apply elem_of_total_downloads_df in Hin as [Ht _].
    apply list_elem_of_fmap in Ht as (r & -> & Hr). eauto.
  - intros (r & Hr & ->). eexists. split; [done|].
    exists (interval r, interval_total df (interval r)). split; [|done].
    apply elem_of_total_downloads_df. split; [|done].
    apply list_elem_of_fmap. eauto.
Qed.

Lemma episodes_per_month_months df m :
  m ∈ (episodes_per_month (assign_publish_month df)).*1 ↔
  ∃ r, r ∈ unique_episodes_df df ∧ m = period_str (to_period (published_at r)).
Proof.
  rewrite episodes_per_month_keys, list_elem_of_fmap.
  setoid_rewrite elem_of_groupby_keys; [|apply _..].
  rewrite unique_episodes_df_assign. split.
  - intros (p & -> & r & (r0 & -> & Hr0)%list_elem_of_fmap & [= <-]). eauto.
  - intros (r & Hr & ->). eexists. split; [done|].
    eexists. split; [apply list_elem_of_fmap; eauto|]. done.
Qed.

(** X9: for a table of representable timestamps the rows of the monthly
    table are in calendar order: the month keys are the texts of strictly
    increasing months, and these months are exactly the months of the
    recorded intervals and the publication months of the first rows of
    the titles. *)
Theorem all_months_in_calendar_order df :
  valid_table df →
  ∃ ps, month <$> all_months_of df = period_str <$> ps ∧
        StronglySorted (strict period_le) ps ∧
        ∀ p, p ∈ ps ↔
             (∃ r, r ∈ df ∧ p = to_period (interval r)) ∨
             (∃ r, r ∈ unique_episodes_df df ∧ p = to_period (published_at r)).
Proof.
  intros Hv.
  set (P := λ p, (∃ r, r ∈ df ∧ p = to_period (interval r)) ∨
                 (∃ r, r ∈ unique_episodes_df df
                       ∧ p = to_period (published_at r))).
  assert (∀ r, r ∈ df → valid_ts (published_at r) ∧ valid_ts (interval r))
    as Hrows by (by apply Forall_forall).
  assert (∀ p, P p → valid_period p) as HPv.
  { intros p [(r & Hr & ->)|(r & Hr & ->)]; apply valid_ts_period.
    - by apply Hrows.
    - by apply Hrows, (drop_duplicates_elem_of episode_title). }
  assert (∀ m, m ∈ month <$> all_months_of df ↔ ∃ p, P p ∧ m = period_str p)
    as Hmonths.
  { intros m. rewrite (all_months_of_months df Hv), elem_of_unique, elem_of_app.
    rewrite monthly_downloads_of_months, episodes_per_month_months.
    unfold P. split.
    - intros [(r & Hr & ->)|(r & Hr & ->)]; eexists; split; eauto.
    - intros (p & [(r & Hr & ->)|(r & Hr & ->)] & ->); eauto. }
  destruct (month_keys_periods P (month <$> all_months_of df))
    as (ps & Hps & HP).
  { intros m (p & Hp & ->)%Hmonths. eauto. }
  exists ps. split; [done|]. split.
  - apply strictly_sorted_periods.
    + eapply Forall_impl; [exact HP|]. by intros p [? _].
    + rewrite <- Hps. apply StronglySorted_strict; [apply _|..].
      * apply sort_values_month_sorted.
      * rewrite (all_months_of_months df Hv). apply NoDup_unique.
  - intros p. split.
    + intros Hp. by destruct (proj1 (Forall_forall _ _) HP p Hp).
    + intros Hp.
      assert (period_str p ∈ month <$> all_months_of df) as Hin
        by (apply Hmonths; eauto).
      rewrite Hps in Hin. apply list_elem_of_fmap in Hin as (q & Heq & Hq).
      destruct (proj1 (Forall_forall _ _) HP q Hq) as [Hvq _].
      by rewrite (period_str_inj p q (HPv p Hp) Hvq Heq).
Qed.

Lemma all_months_in_calendar_order_witness :
  ∃ ps, month <$> all_months_of scenario_df = period_str <$> ps ∧
        StronglySorted (strict period_le) ps.
Proof.
  destruct (all_months_in_calendar_order scenario_df) as (ps & H1 & H2 & _).
  - repeat constructor; simpl; lia.
  - by exists ps.
Defined.

(** X10: in a server started on any table, after any requests, the
    monthly callback returns a figure with two bar traces over the same
    month axis, downloads on the primary and episode counts on the
    secondary axis, each with one value per month and no missing value. *)
Theorem monthly_figure_bars raw qs v :
  ∃ downloads episodes,
    (update_monthly_stats_graph (load raw).1 v
       (serve_all (load raw).1 qs (load raw).2).2).1
    = Ok (mkMonthlyFigure [downloads; episodes]
            "Monthly Downloads and New Episodes" "group"
            "Total Downloads" "Number of New Episodes" "Month") ∧
    bar_x downloads = month <$> all_months_of raw ∧
    bar_x episodes = bar_x downloads ∧
    bar_secondary_y downloads = false ∧ bar_secondary_y episodes = true ∧
    length (bar_y downloads) = length (bar_x downloads) ∧
    length (bar_y episodes) = length (bar_x episodes) ∧
    Forall (λ c, isna c = false) (bar_y downloads ++ bar_y episodes).
Proof.
  destruct (serve_all_extends _ _ _ qs _ (load_dataset_at raw)) as [extra ->].
  destruct (dataset_at_extend _ _ _ _ extra (load_dataset_at raw)) as [_ Ham].
  rewrite (update_monthly_stats_graph_run _ _ _ v Ham). simpl.
  eexists _, _. split; [reflexivity|]. simpl.
  rewrite !length_fmap. repeat split.
  assert (∀ r, r ∈ all_months_of raw →
               isna (mr_downloads_total r) = false
               ∧ isna (mr_episode_count r) = false) as Hfilled.
  { intros r. unfold all_months_of.
    rewrite sort_values_month_Permutation. unfold fillna_zero.
    intros (r0 & -> & _)%list_elem_of_fmap. simpl.
    split; [by destruct (mr_downloads_total r0)
           |by destruct (mr_episode_count r0)]. }
  apply Forall_app. split; apply Forall_forall;
    intros c (r & -> & Hr)%list_elem_of_fmap; by apply Hfilled.
Qed.

(** * Further properties of the number format *)

(** X13: the two statistics [update_graph] returns, for rows with pairwise
    distinct intervals and values on which float64 is exact, are the sum
    of the deltas and the last delta, written with thousands separators.
    The text of a number below 1000 is its decimal notation; from 1000 on
    it is the text of the thousands, a comma, and the three digits of the
    rest; a negative number has a minus sign before the text of its
    magnitude.  Without the commas the text is the decimal notation, and
    two different numbers never have the same text. *)
Theorem update_graph_thousands_separators g h df sel fig total latest :
  h !! g_df g = Some (ODataFrame df) →
  well_recorded df sel →
  (update_graph g sel h).1 = Ok (fig, total, latest) →
  ∃ t l,
    sum_skipna (monthly_delta_series (episode_series df sel)) = t ∧
    last (monthly_delta_series (episode_series df sel)) = Some (Num l) ∧
    float_exact t ∧ float_exact l ∧
    total = format_thousands t ∧ latest = format_thousands l ∧
    strip_commas total = pretty t ∧ strip_commas latest = pretty l ∧
    (∀ z, 0 ≤ z < 1000 → format_thousands z = pretty z) ∧
    (∀ z, 1000 ≤ z →
          format_thousands z
          = format_thousands (z / 1000) +:+ "," +:+ fmt3 (z mod 1000)) ∧
    (∀ z, z < 0 → format_thousands z = "-" +:+ format_thousands (- z)) ∧
    (∀ z1 z2, format_thousands z1 = format_thousands z2 → z1 = z2).
Proof.
  intros Hdf Hwr. rewrite (update_graph_run g h df sel Hdf). simpl.
  intros (p & z & _ & Hlast & _ & -> & ->)%graph_result_Ok.
  destruct (well_recorded_exact df sel Hwr) as (Hsum_exact & Hdeltas_exact & _).
  rewrite iloc_last in Hlast.
  destruct (last (monthly_delta_series (episode_series df sel)))
    as [c|] eqn:Hl; [|done].
  injection Hlast as ->.
  eexists _, z. split; [done|]. split; [done|]. split; [done|].
  split; [apply Hdeltas_exact; by apply last_Some_elem_of|].
  split; [done|]. split; [done|].
  rewrite !strip_commas_format_thousands. split; [done|]. split; [done|].
  split; [apply format_thousands_below_1000|].
  split; [apply format_thousands_from_1000|].
  split; [apply format_thousands_negative|].
  apply format_thousands_inj.
Qed.

Lemma update_graph_thousands_separators_witness :
  (update_graph (load popular_df).1 "A" (load popular_df).2).1
  = Ok (graph_figure "A" (episode_series (assign_publish_month popular_df) "A")
          (at_midnight 2023 1 1) 1234567,
        "1,234,567", "1,233,567") ∧
  strip_commas "1,234,567" = pretty 1234567 ∧
  format_thousands 1234567 = format_thousands 1234 +:+ "," +:+ fmt3 567.
Proof.
  destruct (update_graph_thousands_separators (load popular_df).1
              (load popular_df).2 (assign_publish_month popular_df) "A"
              (graph_figure "A"
                 (episode_series (assign_publish_month popular_df) "A")
                 (at_midnight 2023 1 1) 1234567)
              "1,234,567" "1,233,567")
    as (t & l & Ht & _ & _ & _ & _ & _ & Hstrip & _ & _ & Hstep & _).
  - reflexivity.
  - split; [apply (bool_decide_unpack _); by vm_compute|].
    unfold float_exact_column. by vm_compute.
  - by vm_compute.
  - vm_compute in Ht. subst t.
    split; [by vm_compute|]. split; [exact Hstrip|].
    apply (Hstep 1234567). lia.
Defined.
